(** * latenpy: lazy computation nodes with caching and invalidation

    A shallow embedding of [latenpy/latent.py]: the [Latent] class (a delayed
    call with a single-slot cache, a staleness flag, a re-entrancy flag and a
    set of dependents), its mutators [update_func] / [update_args] /
    [update_kwargs], the graph builder, [compute_nested] and
    [Latent.compute].

    Python objects live in a store: a [Latent] instance is an address into
    [heap], and every mutation of an instance is an update of the store, so
    aliasing between a node, its dependencies and its dependents is kept.

    Conventions of the model
    - values are [None], integers, strings, references to [Latent] objects,
      lists and tuples; the other container shapes [compute_nested]
      dispatches on (arrays, mappings, sets, iterators) are outside this
      value universe;
    - a callable is a name together with a pure function from resolved
      arguments to a value or a raised exception; every invocation is
      recorded in [calls] (newest first), the counterpart of the
      [computation_count] counters of the test-suite;
    - an exception is its class name, its message and its [__cause__]; all
      modelled exceptions are subclasses of [Exception] whose constructor
      takes the message;
    - [_get_node_id] is taken to be injective on live objects, so a graph
      node is keyed by the address of its object;
    - a Python [set] of nodes is a duplicate-free list in insertion order. *)

From Stdlib Require Import ZArith String Lia.
From stdpp Require Import base list strings.

Open Scope string_scope.
Open Scope list_scope.
Open Scope nat_scope.
#[local] Set Warnings "-register-all".

(** ** Values, exceptions, callables *)

(** An object reference: the position of the object in the store. *)
Abbreviation addr := nat (only parsing).

Inductive value : Type :=
| VNone
| VInt (z : Z)
| VStr (s : string)
| VLatent (a : addr)
| VList (xs : list value)
| VTuple (xs : list value).

Inductive exn : Type :=
| Exn (ty : string) (msg : string) (cause : option exn).

Definition exn_type (e : exn) : string := let 'Exn ty _ _ := e in ty.
Definition exn_str (e : exn) : string := let 'Exn _ msg _ := e in msg.
Definition exn_cause (e : exn) : option exn := let 'Exn _ _ c := e in c.

Record callable := {
  __name__ : string;
  body : list value → list (string * value) → value + exn
}.

(** ** The [Latent] object and the program state *)

Record Latent := {
  _func : callable;
  _args : list value;
  _kwargs : list (string * value);
  disable_cache : bool;
  latent_data : option value;
  _needs_recomputation : bool;
  _computing : bool;
  _dependents : list addr
}.

(** [default_visited] is the set object created once, when
    [def _update_dependents(self, visited: Set = set())] is evaluated, and
    bound to the parameter on every call that passes no argument. *)
Record state := {
  heap : list Latent;
  default_visited : list addr;
  calls : list addr
}.

Definition with_heap (h : list Latent) (s : state) : state :=
  {| heap := h; default_visited := default_visited s; calls := calls s |}.

Definition set_func (f : callable) (nd : Latent) : Latent :=
  {| _func := f; _args := _args nd; _kwargs := _kwargs nd;
     disable_cache := disable_cache nd; latent_data := latent_data nd;
     _needs_recomputation := _needs_recomputation nd;
     _computing := _computing nd; _dependents := _dependents nd |}.

Definition set_args (a : list value) (nd : Latent) : Latent :=
  {| _func := _func nd; _args := a; _kwargs := _kwargs nd;
     disable_cache := disable_cache nd; latent_data := latent_data nd;
     _needs_recomputation := _needs_recomputation nd;
     _computing := _computing nd; _dependents := _dependents nd |}.

Definition set_kwargs (k : list (string * value)) (nd : Latent) : Latent :=
  {| _func := _func nd; _args := _args nd; _kwargs := k;
     disable_cache := disable_cache nd; latent_data := latent_data nd;
     _needs_recomputation := _needs_recomputation nd;
     _computing := _computing nd; _dependents := _dependents nd |}.

Definition set_latent_data (c : option value) (nd : Latent) : Latent :=
  {| _func := _func nd; _args := _args nd; _kwargs := _kwargs nd;
     disable_cache := disable_cache nd; latent_data := c;
     _needs_recomputation := _needs_recomputation nd;
     _computing := _computing nd; _dependents := _dependents nd |}.

Definition set_needs_recomputation (b : bool) (nd : Latent) : Latent :=
  {| _func := _func nd; _args := _args nd; _kwargs := _kwargs nd;
     disable_cache := disable_cache nd; latent_data := latent_data nd;
     _needs_recomputation := b;
     _computing := _computing nd; _dependents := _dependents nd |}.

Definition set_computing (b : bool) (nd : Latent) : Latent :=
  {| _func := _func nd; _args := _args nd; _kwargs := _kwargs nd;
     disable_cache := disable_cache nd; latent_data := latent_data nd;
     _needs_recomputation := _needs_recomputation nd;
     _computing := b; _dependents := _dependents nd |}.

Definition add_dependent (d : addr) (nd : Latent) : Latent :=
  {| _func := _func nd; _args := _args nd; _kwargs := _kwargs nd;
     disable_cache := disable_cache nd; latent_data := latent_data nd;
     _needs_recomputation := _needs_recomputation nd;
     _computing := _computing nd;
     _dependents := if bool_decide (d ∈ _dependents nd)
                    then _dependents nd else _dependents nd ++ [d] |}.

(** [isinstance(v, Latent)] *)
Definition as_latent (v : value) : option addr :=
  match v with VLatent a => Some a | _ => None end.

(** The arguments and keyword-argument values that are themselves nodes,
    in the order the source iterates over them. *)
Definition latent_args (nd : Latent) : list addr :=
  omap as_latent (_args nd) ++ omap as_latent ((_kwargs nd).*2).

(** ** Construction: [Latent.__init__] *)

Definition Latent_init (func : callable) (args : list value)
    (dis : bool) (kwargs : list (string * value)) (s : state) : addr * state :=
  let self := length (heap s) in
  let nd := {| _func := func; _args := args; _kwargs := kwargs;
               disable_cache := dis; latent_data := None;
               _needs_recomputation := false; _computing := false;
               _dependents := [] |} in
  let h1 := heap s ++ [nd] in
  let h2 := foldl (λ h a, alter (add_dependent self) a h) h1
                  (omap as_latent args) in
  let h3 := foldl (λ h a, alter (add_dependent self) a h) h2
                  (omap as_latent (kwargs.*2)) in
  (self, with_heap h3 s).

(** ** Mutation and eager invalidation *)

(** The body of the loop of [_update_dependents] for one dependent:
    [dependent._needs_recomputation = True; dependent.latent_data.clear()]. *)
Definition mark_stale (nd : Latent) : Latent :=
  set_latent_data None (set_needs_recomputation true nd).

(** [_update_dependents(self, visited)]: the heap and the [visited] set are
    threaded through the loop and the recursive calls, as both are mutated
    in place.  [None] only when the fuel runs out. *)
Fixpoint _update_dependents (fuel : nat) (self : addr)
    (hv : list Latent * list addr) : option (list Latent * list addr) :=
  match fuel with
  | O => None
  | S fuel' =>
    match hv.1 !! self with
    | None => Some hv
    | Some nd =>
      foldl (λ acc dependent,
               match acc with
               | None => None
               | Some hv' =>
                 if bool_decide (dependent ∈ hv'.2) then Some hv'
                 else _update_dependents fuel' dependent
                        (alter mark_stale dependent hv'.1, dependent :: hv'.2)
               end)
            (Some hv) (_dependents nd)
    end
  end.

(** A call [self._update_dependents()] without argument: [visited] is the
    shared default object, and what the call adds to it stays there. *)
Definition _update_dependents_default (self : addr) (s : state) : option state :=
  match _update_dependents (S (length (heap s))) self (heap s, default_visited s) with
  | None => None
  | Some (h, v) => Some {| heap := h; default_visited := v; calls := calls s |}
  end.

Definition update_with (change : Latent → Latent) (self : addr) (s : state)
    : option state :=
  let s1 := with_heap (alter (λ nd, set_needs_recomputation true (change nd))
                             self (heap s)) s in
  match _update_dependents_default self s1 with
  | None => None
  | Some s2 => Some (with_heap (alter (set_latent_data None) self (heap s2)) s2)
  end.

Definition update_func (self : addr) (func : callable) : state → option state :=
  update_with (set_func func) self.

Definition update_args (self : addr) (args : list value) : state → option state :=
  update_with (set_args args) self.

(** [dict.update]: an existing key keeps its position, a new key is appended. *)
Fixpoint dict_set (k : string) (v : value) (d : list (string * value))
    : list (string * value) :=
  match d with
  | [] => [(k, v)]
  | (k', v') :: d' => if String.eqb k k' then (k, v) :: d'
                      else (k', v') :: dict_set k v d'
  end.

Definition dict_update (d new : list (string * value)) : list (string * value) :=
  foldl (λ acc kv, dict_set kv.1 kv.2 acc) d new.

Definition update_kwargs (self : addr) (full_reset : bool)
    (kwargs : list (string * value)) : state → option state :=
  update_with (λ nd, set_kwargs (if full_reset then kwargs
                                 else dict_update (_kwargs nd) kwargs) nd) self.

(** ** The dependency graph: [get_dependency_graph] / [_build_graph] *)

Record node_attr := {
  label : string;
  computed : bool;
  needs_recomputation : bool;
  delayed_obj : addr
}.

(** A [networkx.DiGraph]: attributed nodes and directed edges
    (dependency, dependent). *)
Record DiGraph := {
  nodes : list (addr * node_attr);
  edges : list (addr * addr)
}.

Definition empty_graph : DiGraph := {| nodes := []; edges := [] |}.

Definition has_node (G : DiGraph) (n : addr) : bool :=
  bool_decide (n ∈ (nodes G).*1).

(** [G.add_node(n, **attr)]: a new node is appended, an existing one has its
    attributes replaced. *)
Definition add_node (n : addr) (a : node_attr) (G : DiGraph) : DiGraph :=
  {| nodes := if has_node G n
              then (λ p : addr * node_attr,
                      if bool_decide (p.1 = n) then (n, a) else p) <$> nodes G
              else nodes G ++ [(n, a)];
     edges := edges G |}.

(** [G.add_edge(u, v)]; both end points are already nodes of [G] wherever
    [_build_graph] adds an edge. *)
Definition add_edge (u v : addr) (G : DiGraph) : DiGraph :=
  {| nodes := nodes G;
     edges := if bool_decide ((u, v) ∈ edges G) then edges G
              else edges G ++ [(u, v)] |}.

Definition attr_of (self : addr) (nd : Latent) : node_attr :=
  {| label := __name__ (_func nd);
     computed := bool_decide (is_Some (latent_data nd));
     needs_recomputation := _needs_recomputation nd;
     delayed_obj := self |}.

(** [_build_graph(self, G, visited)].  The graph and the visited set are
    mutated in place by the source and threaded here.  An address outside
    the store (which no Python reference can be) is skipped. *)
Fixpoint _build_graph (fuel : nat) (h : list Latent) (self : addr)
    (gv : DiGraph * list addr) : option (DiGraph * list addr) :=
  match fuel with
  | O => None
  | S fuel' =>
    if bool_decide (self ∈ gv.2) then Some gv
    else match h !! self with
         | None => Some gv
         | Some nd =>
           foldl (λ acc arg,
                    match acc with
                    | None => None
                    | Some gv1 =>
                      match _build_graph fuel' h arg gv1 with
                      | None => None
                      | Some gv2 => Some (add_edge arg self gv2.1, gv2.2)
                      end
                    end)
                 (Some (add_node self (attr_of self nd) gv.1, self :: gv.2))
                 (latent_args nd)
         end
  end.

Definition get_dependency_graph (h : list Latent) (self : addr) : option DiGraph :=
  fst <$> _build_graph (S (length h)) h self (empty_graph, []).

(** ** The helpers of [latenpy/graph.py] and the cache of [latenpy/types.py] *)

(** Modelled from the spec: [LatentData] of [latenpy/types.py] is not among
    the sources.  It is the "optional single-slot cache holding the last
    successfully computed value; empty until first successful compute,
    cleared on invalidation": the field [latent_data : option value] above,
    with [set(v)] storing [Some v], [clear()] storing [None], truthiness
    being non-emptiness and a call returning the stored value. *)
Definition LatentData_set (self : addr) (v : value) (s : state) : state :=
  with_heap (alter (set_latent_data (Some v)) self (heap s)) s.

(** Modelled from the spec: [validate_no_cycles] of [latenpy/graph.py] is not
    among the sources.  It "fails with a CyclicDependencyError if the graph
    is not acyclic".  Acyclicity is decided by repeatedly discarding the
    nodes that have no incoming edge from a remaining node: the graph is
    acyclic exactly when nothing remains. *)
Definition has_pred_in (G : DiGraph) (remaining : list addr) (n : addr) : bool :=
  bool_decide (Exists (λ e : addr * addr, e.2 = n ∧ e.1 ∈ remaining) (edges G)).

Fixpoint peel (fuel : nat) (G : DiGraph) (remaining : list addr) : list addr :=
  match fuel with
  | O => remaining
  | S fuel' => peel fuel' G (filter (λ n, has_pred_in G remaining n = true) remaining)
  end.

Definition is_acyclic (G : DiGraph) : bool :=
  bool_decide (peel (length (nodes G)) G (nodes G).*1 = []).

Definition CyclicDependencyError : exn :=
  Exn "CyclicDependencyError" "Circular dependency detected in the computation graph" None.

Definition validate_no_cycles (G : DiGraph) : option exn :=
  if is_acyclic G then None else Some CyclicDependencyError.

(** Modelled from the spec: [correct_computed_status] of [latenpy/graph.py]
    is not among the sources.  "For every node marked needs_recomputation,
    propagate that marking forward along edges to all reachable dependents
    (a dependent of a stale node is itself stale, transitively), clearing
    their caches as it goes."  The marking is the attribute of the graph
    node; the cache is the one of the object the node refers to. *)
Definition successors (G : DiGraph) (from : list addr) : list addr :=
  (filter (λ e : addr * addr, e.1 ∈ from) (edges G)).*2.

Fixpoint descendants (fuel : nat) (G : DiGraph) (reached : list addr) : list addr :=
  match fuel with
  | O => reached
  | S fuel' =>
    descendants fuel' G
      (reached ++ filter (λ n, n ∉ reached) (remove_dups (successors G reached)))
  end.

Definition stale_nodes (G : DiGraph) : list addr :=
  (filter (λ p : addr * node_attr, needs_recomputation p.2 = true) (nodes G)).*1.

Definition stale_dependents (G : DiGraph) : list addr :=
  descendants (length (nodes G)) G (remove_dups (successors G (stale_nodes G))).

Definition attr_mark_stale (a : node_attr) : node_attr :=
  {| label := label a; computed := false; needs_recomputation := true;
     delayed_obj := delayed_obj a |}.

Definition correct_computed_status (G : DiGraph) (s : state) : DiGraph * state :=
  let D := stale_dependents G in
  ({| nodes := (λ p : addr * node_attr,
                  if bool_decide (p.1 ∈ D) then (p.1, attr_mark_stale p.2) else p)
               <$> nodes G;
      edges := edges G |},
   with_heap
     (foldl (λ h p, if bool_decide (p.1 ∈ D)
                    then alter (set_latent_data None) (delayed_obj p.2) h else h)
            (heap s) (nodes G))
     s).

(** Modelled from the spec: [get_updated_nodes] of [latenpy/graph.py] is not
    among the sources.  It "returns every node in the graph still marked
    needs_recomputation after step 1". *)
Definition get_updated_nodes (G : DiGraph) : list addr := stale_nodes G.

(** ** Evaluation: a state-and-exception monad *)

(** The outcome of running a piece of the program: a value, a raised
    exception, or no answer from the model (recursion budget exhausted, or
    an address outside the store). *)
Inductive result (A : Type) : Type :=
| Returned (a : A)
| Raised (e : exn)
| NoResult.
Arguments Returned {A} a.
Arguments Raised {A} e.
Arguments NoResult {A}.

Definition M (A : Type) : Type := state → result A * state.

Definition ret {A} (a : A) : M A := λ s, (Returned a, s).
Definition raise {A} (e : exn) : M A := λ s, (Raised e, s).
Definition bind {A B} (m : M A) (k : A → M B) : M B :=
  λ s, match m s with
       | (Returned a, s') => k a s'
       | (Raised e, s') => (Raised e, s')
       | (NoResult, s') => (NoResult, s')
       end.

Notation "x <- m ;; k" := (bind m (λ x, k))
  (at level 100, m at next level, right associativity, only parsing).
Notation "m ;;; k" := (bind m (λ _, k))
  (at level 100, right associativity, only parsing).

Definition modify (f : state → state) : M unit := λ s, (Returned tt, f s).

Definition mapM {A B} (f : A → M B) : list A → M (list B) :=
  fix go l :=
    match l with
    | [] => ret []
    | x :: l' => y <- f x ;; ys <- go l' ;; ret (y :: ys)
    end.

(** Reading the object behind a reference. *)
Definition get_node (self : addr) : M Latent :=
  λ s, match heap s !! self with
       | Some nd => (Returned nd, s)
       | None => (NoResult, s)
       end.

(** The callable of [self] is entered. *)
Definition log_call (self : addr) (s : state) : state :=
  {| heap := heap s; default_visited := default_visited s;
     calls := self :: calls s |}.

Definition set_computing_flag (self : addr) (b : bool) (s : state) : state :=
  with_heap (alter (set_computing b) self (heap s)) s.

Definition RecursionError (name : string) : exn :=
  Exn "RecursionError"
      ("Circular dependency detected in delayed computation of " +:+ name) None.

(** [type(e)(f"Error in delayed computation of {name}: {str(e)}") from e] *)
Definition wrap_error (name : string) (e : exn) : exn :=
  Exn (exn_type e)
      ("Error in delayed computation of " +:+ name +:+ ": " +:+ exn_str e)
      (Some e).

(** [maximum_depth is not None and depth > maximum_depth] *)
Definition depth_exceeded (depth : Z) (maximum_depth : option Z) : bool :=
  match maximum_depth with
  | None => false
  | Some m => (m <? depth)%Z
  end.

Section Evaluation.

(** [Latent.compute] as seen from [compute_nested] and from the body of
    [compute] itself: the method one level further down the recursion.
    Arguments: [self force_recompute recompute_dependencies dont_cache
    maximum_depth]. *)
Variable compute_rec : addr → bool → bool → bool → option Z → M value.

(** [compute_nested(obj, force_recompute, dont_cache, depth, maximum_depth)].
    A [Latent] is computed with [recompute_dependencies] left at its
    default. *)
Fixpoint compute_nested (obj : value) (force_recompute dont_cache : bool)
    (depth : Z) (maximum_depth : option Z) {struct obj} : M value :=
  if depth_exceeded depth maximum_depth then ret obj
  else
    let depth := (depth + 1)%Z in
    match obj with
    | VLatent o =>
      compute_rec o force_recompute false dont_cache (Z.pred <$> maximum_depth)
    | VList xs =>
      ys <- mapM (λ item, compute_nested item force_recompute dont_cache
                                         depth maximum_depth) xs ;;
      ret (VList ys)
    | VTuple xs =>
      ys <- mapM (λ item, compute_nested item force_recompute dont_cache
                                         depth maximum_depth) xs ;;
      ret (VTuple ys)
    | _ => ret obj
    end.

(** The [try] block of [compute]: resolve the positional arguments in
    order, then the keyword arguments in order, call the function, store
    the result unless caching is disabled or suppressed. *)
Definition try_block (self : addr) (recompute_dependencies dont_cache : bool)
    (maximum_depth : option Z) : M value :=
  nd <- get_node self ;;
  computed_args <- mapM (λ arg, compute_nested arg recompute_dependencies
                                   dont_cache 0 maximum_depth) (_args nd) ;;
  nd <- get_node self ;;
  computed_kwargs <- mapM (λ kv : string * value,
                             v <- compute_nested kv.2 recompute_dependencies
                                    dont_cache 0 maximum_depth ;;
                             ret (kv.1, v)) (_kwargs nd) ;;
  nd <- get_node self ;;
  modify (log_call self) ;;;
  match body (_func nd) computed_args computed_kwargs with
  | inr e => raise e
  | inl res =>
    (if negb (disable_cache nd) && negb dont_cache
     then modify (LatentData_set self res) else ret tt) ;;;
    ret res
  end.

(** [except Exception as e: raise type(e)(...) from e] *)
Definition reraise (self : addr) (r : result value) (s : state) : result value :=
  match r with
  | Raised e =>
    match heap s !! self with
    | Some nd => Raised (wrap_error (__name__ (_func nd)) e)
    | None => NoResult
    end
  | _ => r
  end.

(** One activation of [Latent.compute]. *)
Definition compute_body (self : addr)
    (force_recompute recompute_dependencies dont_cache : bool)
    (maximum_depth : option Z) : M value :=
  λ s,
    match heap s !! self with
    | None => (NoResult, s)
    | Some nd =>
      if _computing nd
      then (Raised (RecursionError (__name__ (_func nd))), s)
      else
        match get_dependency_graph (heap s) self with
        | None => (NoResult, s)
        | Some G =>
          match validate_no_cycles G with
          | Some e => (Raised e, s)
          | None =>
            let '(G1, s1) := correct_computed_status G s in
            let updated_nodes := get_updated_nodes G1 in
            match heap s1 !! self with
            | None => (NoResult, s1)
            | Some nd1 =>
              let can_use_cache :=
                negb force_recompute && negb recompute_dependencies
                && bool_decide (updated_nodes = [])
                && bool_decide (is_Some (latent_data nd1)) in
              if can_use_cache
              then (match latent_data nd1 with
                    | Some v => Returned v
                    | None => NoResult
                    end, s1)
              else
                let s2 := set_computing_flag self true s1 in
                let '(r, s3) := try_block self recompute_dependencies
                                          dont_cache maximum_depth s2 in
                (reraise self r s3, set_computing_flag self false s3)
            end
          end
        end
    end.

End Evaluation.

(** [Latent.compute(self, force_recompute, recompute_dependencies,
    dont_cache, maximum_depth)].  [fuel] bounds the depth of nested
    activations of [compute]; the checks before the [try] block need none. *)
Fixpoint compute (fuel : nat) : addr → bool → bool → bool → option Z → M value :=
  compute_body
    (match fuel with
     | O => λ _ _ _ _ _ s, (NoResult, s)
     | S fuel' => compute fuel'
     end).

(** ** Construction through the decorator, status, cache clearing *)

(** The wrapper returned by [latent(func, disable_cache=...)], called with
    positional arguments [args] and keyword arguments [kwargs]:
    [Latent(func, *args, **kwargs, disable_cache=disable_cache)].  Python
    refuses the call with a [TypeError] when [kwargs] has a key
    [disable_cache] of its own, and when it has a key [self] or [func],
    the two parameters of [__init__] that are already bound by position
    (the first such key in the order of [kwargs] is the one reported). *)
Definition TypeError_multiple (what name : string) : exn :=
  Exn "TypeError"
      ("Latent.__init__() got multiple values for " +:+ what +:+ " '" +:+ name +:+ "'")
      None.

Definition latent (func : callable) (dis : bool) (args : list value)
    (kwargs : list (string * value)) : M addr :=
  λ s, if bool_decide ("disable_cache" ∈ kwargs.*1)
       then (Raised (TypeError_multiple "keyword argument" "disable_cache"), s)
       else match filter (λ k, k ∈ ["self"; "func"]) kwargs.*1 with
            | k :: _ => (Raised (TypeError_multiple "argument" k), s)
            | [] => let '(self, s') := Latent_init func args dis kwargs s in
                    (Returned self, s')
            end.

(** The property [computed], also [__bool__]: [bool(self.latent_data)], with
    the truthiness of [LatentData] as above. *)
Definition Latent_computed (nd : Latent) : bool := bool_decide (is_Some (latent_data nd)).

(** [clear_cache(self, dependencies, dependents)].  The recursion keeps no
    visited set; [None] when the fuel runs out. *)
Fixpoint clear_cache (fuel : nat) (self : addr) (dependencies dependents : bool)
    (h : list Latent) : option (list Latent) :=
  match fuel with
  | O => None
  | S fuel' =>
    let h0 := alter (set_latent_data None) self h in
    let step (deps depd : bool) (acc : option (list Latent)) (o : addr) :=
      match acc with
      | None => None
      | Some h' => clear_cache fuel' o deps depd h'
      end in
    match (if dependencies
           then foldl (step true false) (Some h0)
                      (from_option latent_args [] (h0 !! self))
           else Some h0) with
    | None => None
    | Some h1 =>
      if dependents
      then foldl (step false true) (Some h1)
                 (from_option _dependents [] (h1 !! self))
      else Some h1
    end
  end.

(** * Vocabulary of the properties, and example programs *)

(** ** What an evaluation may change in the store

    [compute] writes three things: caches, the [_computing] flag of the
    node being computed (set, then reset), and the log of invocations.
    [evolves s s'] records what is the same before and after: every field
    of every object but its cache, the shared default set, the earlier part
    of the log; and the cache of an object that is being computed or has
    caching disabled can only have been emptied. *)

Definition frozen (nd : Latent) : bool := _computing nd || disable_cache nd.

Definition node_evolves (o o' : option Latent) : Prop :=
  match o, o' with
  | None, None => True
  | Some nd, Some nd' =>
    set_latent_data None nd' = set_latent_data None nd
    ∧ (frozen nd = true →
       latent_data nd' = None ∨ latent_data nd' = latent_data nd)
  | _, _ => False
  end.

Definition evolves (s s' : state) : Prop :=
  default_visited s' = default_visited s
  ∧ calls s `suffix_of` calls s'
  ∧ ∀ x, node_evolves (heap s !! x) (heap s' !! x).

Definition cleared_or_same (o o' : option Latent) : Prop :=
  o' = o ∨ o' = set_latent_data None <$> o.

(** *** The paths through one activation of [compute] *)

Inductive compute_path (rec : addr → bool → bool → bool → option Z → M value)
    (self : addr) (fr rd dc : bool) (md : option Z) (s : state)
    : result value → state → Prop :=
| path_dangling :
    heap s !! self = None →
    compute_path rec self fr rd dc md s NoResult s
| path_reentrant nd :
    heap s !! self = Some nd → _computing nd = true →
    compute_path rec self fr rd dc md s
      (Raised (RecursionError (__name__ (_func nd)))) s
| path_no_graph nd :
    heap s !! self = Some nd → _computing nd = false →
    get_dependency_graph (heap s) self = None →
    compute_path rec self fr rd dc md s NoResult s
| path_cycle nd G e :
    heap s !! self = Some nd → _computing nd = false →
    get_dependency_graph (heap s) self = Some G →
    validate_no_cycles G = Some e →
    compute_path rec self fr rd dc md s (Raised e) s
| path_lost nd G :
    heap s !! self = Some nd → _computing nd = false →
    get_dependency_graph (heap s) self = Some G →
    validate_no_cycles G = None →
    heap (correct_computed_status G s).2 !! self = None →
    compute_path rec self fr rd dc md s NoResult (correct_computed_status G s).2
| path_hit nd G nd1 v :
    heap s !! self = Some nd → _computing nd = false →
    get_dependency_graph (heap s) self = Some G →
    validate_no_cycles G = None →
    heap (correct_computed_status G s).2 !! self = Some nd1 →
    fr = false → rd = false →
    get_updated_nodes (correct_computed_status G s).1 = [] →
    latent_data nd1 = Some v →
    compute_path rec self fr rd dc md s (Returned v) (correct_computed_status G s).2
| path_slow nd G nd1 r s3 :
    heap s !! self = Some nd → _computing nd = false →
    get_dependency_graph (heap s) self = Some G →
    validate_no_cycles G = None →
    heap (correct_computed_status G s).2 !! self = Some nd1 →
    (fr = true ∨ rd = true
     ∨ get_updated_nodes (correct_computed_status G s).1 ≠ []
     ∨ latent_data nd1 = None) →
    try_block rec self rd dc md
      (set_computing_flag self true (correct_computed_status G s).2) = (r, s3) →
    compute_path rec self fr rd dc md s
      (reraise self r s3) (set_computing_flag self false s3).

(** *** Evaluation preserves [evolves] *)

Definition evolving {A} (m : M A) : Prop :=
  ∀ s r s', m s = (r, s') → evolves s s'.

Definition rec_evolving (rec : addr → bool → bool → bool → option Z → M value) :=
  ∀ a fr rd dc md, evolving (rec a fr rd dc md).

(** ** The graph builder reaches every ancestor *)

(** [a] is a dependency of [n]: an argument or keyword-argument value of
    [n] that is itself a node. *)
Definition dependency (h : list Latent) (n a : addr) : Prop :=
  ∃ nd, h !! n = Some nd ∧ a ∈ latent_args nd.

(** The nodes reachable backward from [n], [n] included. *)
Inductive ancestor (h : list Latent) (n : addr) : addr → Prop :=
| ancestor_self : is_Some (h !! n) → ancestor h n n
| ancestor_step m a :
    ancestor h n m → dependency h m a → is_Some (h !! a) → ancestor h n a.

Definition graph_ok (h : list Latent) (G : DiGraph) : Prop :=
  ∀ x attr, (x, attr) ∈ nodes G → ∃ nd, h !! x = Some nd ∧ attr = attr_of x nd.

Definition closed_at (h : list Latent) (v : list addr) (x : addr) : Prop :=
  ∀ y, dependency h x y → is_Some (h !! y) → y ∈ v.

Definition build_step (fuel : nat) (h : list Latent) (self : addr)
    (acc : option (DiGraph * list addr)) (arg : addr)
    : option (DiGraph * list addr) :=
  match acc with
  | None => None
  | Some gv1 =>
    match _build_graph fuel h arg gv1 with
    | None => None
    | Some gv2 => Some (add_edge arg self gv2.1, gv2.2)
    end
  end.

Definition build_post (h : list Latent) (G : DiGraph) (v : list addr)
    (G' : DiGraph) (v' : list addr) : Prop :=
  (∀ x, x ∈ v → x ∈ v')
  ∧ (graph_ok h G → graph_ok h G')
  ∧ (∀ x, x ∈ (nodes G).*1 → x ∈ (nodes G').*1)
  ∧ (∀ x, x ∈ v' → x ∈ v ∨ x ∈ (nodes G').*1)
  ∧ (∀ x, x ∈ v' → x ∉ v → closed_at h v' x).

(** *** The builder never runs out of fuel *)

Definition unvisited (h : list Latent) (v : list addr) : nat :=
  length (filter (λ a, a ∉ v) (seq 0 (length h))).

(** ** Facts about one call of [compute] *)

(** What [compute] calls recursively with no fuel left. *)
Definition no_fuel : addr → bool → bool → bool → option Z → M value :=
  λ _ _ _ _ _ s, (NoResult, s).

Definition compute_below (fuel : nat) : addr → bool → bool → bool → option Z → M value :=
  match fuel with O => no_fuel | S fuel' => compute fuel' end.

(** The four conditions under which [compute] may reuse the cache. *)
Definition cache_eligible (fr rd : bool) (G : DiGraph) (s : state) (nd : Latent) : Prop :=
  fr = false ∧ rd = false
  ∧ get_updated_nodes (correct_computed_status G s).1 = []
  ∧ is_Some (latent_data nd).

#[local] Instance cache_eligible_dec fr rd G s nd :
  Decision (cache_eligible fr rd G s nd).
Proof. unfold cache_eligible. apply _. Defined.

(** ** Termination: enough fuel always gives an answer *)

(** Every reference inside a value points into a store of [L] objects. *)
Fixpoint refs_ok (L : nat) (v : value) : bool :=
  match v with
  | VLatent a => bool_decide (a < L)
  | VList xs | VTuple xs => forallb (refs_ok L) xs
  | _ => true
  end.

Definition node_ok (L : nat) (nd : Latent) : bool :=
  forallb (refs_ok L) (_args nd) && forallb (refs_ok L) ((_kwargs nd).*2).

(** The store is closed: the arguments of its objects refer to its objects. *)
Definition store_ok (h : list Latent) : bool := forallb (node_ok (length h)) h.

(** The number of objects that are not being computed. *)
Definition idle (h : list Latent) : nat :=
  length (filter (λ nd, _computing nd = false) h).

Definition within (n : nat) (s : state) : Prop :=
  store_ok (heap s) = true ∧ idle (heap s) ≤ n.

Definition rec_safe (n : nat)
    (rec : addr → bool → bool → bool → option Z → M value) : Prop :=
  ∀ a fr rd dc md s,
    within n s → a < length (heap s) → (rec a fr rd dc md s).1 ≠ NoResult.

(** ** The graph seen after an evaluation

    An evaluation changes caches only, so the graph built afterwards has
    the same nodes, edges and staleness marks; only [computed] may differ. *)

Definition shape (G : DiGraph) : list (addr * bool) * list (addr * addr) :=
  ((λ p : addr * node_attr, (p.1, needs_recomputation p.2)) <$> nodes G, edges G).

(** ** Eager invalidation with a fresh visited set

    What [_update_dependents] achieves when the set it starts from is
    empty: every node downstream of [self] is marked and has its cache
    cleared. *)

Definition dependent_of (h : list Latent) (n d : addr) : Prop :=
  ∃ ds, _dependents <$> h !! n = Some ds ∧ d ∈ ds.

(** The transitive closure of the dependents of [n]. *)
Inductive downstream (h : list Latent) (n : addr) : addr → Prop :=
| downstream_direct d : dependent_of h n d → downstream h n d
| downstream_step m d : downstream h n m → dependent_of h m d → downstream h n d.

(** Every registered dependent is an object of the store. *)
Definition dependents_ok (h : list Latent) : Prop :=
  ∀ n d, dependent_of h n d → d < length h.

Definition marked (h : list Latent) (x : addr) : Prop :=
  ∃ nd, h !! x = Some nd ∧ _needs_recomputation nd = true ∧ latent_data nd = None.

Definition update_post (h : list Latent) (v : list addr)
    (h' : list Latent) (v' : list addr) : Prop :=
  (∀ x, x ∈ v → x ∈ v')
  ∧ length h' = length h
  ∧ (∀ x, _dependents <$> h' !! x = _dependents <$> h !! x)
  ∧ (∀ x, x ∈ v ∨ x ∉ v' → h' !! x = h !! x)
  ∧ (∀ x, x ∈ v' → x ∉ v → x < length h → marked h' x)
  ∧ (∀ x, x ∈ v' → x ∉ v → ∀ d, dependent_of h x d → d ∈ v').

Definition update_step (fuel : nat) (acc : option (list Latent * list addr))
    (dependent : addr) : option (list Latent * list addr) :=
  match acc with
  | None => None
  | Some hv' =>
    if bool_decide (dependent ∈ hv'.2) then Some hv'
    else _update_dependents fuel dependent
           (alter mark_stale dependent hv'.1, dependent :: hv'.2)
  end.

(** ** Example programs *)

Definition int_op (name : string) (op : Z → Z → Z) : callable :=
  {| __name__ := name;
     body := λ args _,
       match args with
       | [VInt a; VInt b] => inl (VInt (op a b))
       | _ => inr (Exn "TypeError" "unsupported operand type(s)" None)
       end |}.

Definition int_fn (name : string) (f : Z → Z) : callable :=
  {| __name__ := name;
     body := λ args _,
       match args with
       | [VInt a] => inl (VInt (f a))
       | _ => inr (Exn "TypeError" "unsupported operand type(s)" None)
       end |}.

(** [def failing_function(): raise ValueError("Test error")], with any
    arguments. *)
Definition failing_function : callable :=
  {| __name__ := "failing_function";
     body := λ _ _, inr (Exn "ValueError" "Test error" None) |}.

Definition empty_state : state :=
  {| heap := []; default_visited := []; calls := [] |}.

Definition or_empty (o : option state) : state := default empty_state o.

(** What the examples observe of a store: per object its cache, its
    staleness flag and its re-entrancy flag. *)
Definition flags (s : state) : list (option value * bool * bool) :=
  (λ nd, (latent_data nd, _needs_recomputation nd, _computing nd)) <$> heap s.

(** [add(multiply(2, 3), power(4, 5))]: objects 0, 1, 2. *)
Definition st_expr : state :=
  let '(m, s) := Latent_init (int_op "multiply" Z.mul) [VInt 2; VInt 3] false [] empty_state in
  let '(p, s) := Latent_init (int_op "power" Z.pow) [VInt 4; VInt 5] false [] s in
  let '(_, s) := Latent_init (int_op "add" Z.add) [VLatent m; VLatent p] false [] s in
  s.

(** ... after [add.compute()]: everything is cached. *)
Definition st_expr_computed : state :=
  (compute 3 2 false false false None st_expr).2.

(** ... while [add] is being computed. *)
Definition st_expr_busy : state := set_computing_flag 2 true st_expr_computed.

(** [a = inc(1); b = inc(a); a.update_args(2)]: objects 0 and 1. *)
Definition st_chain_0 : state :=
  let '(a, s) := Latent_init (int_fn "inc" Z.succ) [VInt 1] false [] empty_state in
  let '(b, s) := Latent_init (int_fn "inc" Z.succ) [VLatent a] false [] s in
  or_empty (update_args a [VInt 2] s).

(** ... then [c = inc(b); c.compute()]: object 2. *)
Definition st_chain_1 : state :=
  let '(c, s) := Latent_init (int_fn "inc" Z.succ) [VLatent 1] false [] st_chain_0 in
  (compute 4 c false false false None s).2.

(** ... then [a.update_args(3)]. *)
Definition st_chain_2 : state := or_empty (update_args 0 [VInt 3] st_chain_1).

(** [def total(xs): return sum(xs)] on a list of integers. *)
Definition total : callable :=
  {| __name__ := "total";
     body := λ args _,
       match args with
       | [VList xs] =>
         inl (VInt (foldr (λ x acc, match x with VInt z => (z + acc)%Z | _ => acc end)
                          0%Z xs))
       | _ => inr (Exn "TypeError" "total expects one list" None)
       end |}.

(** [m = total([1]); n = total([m]); m.update_args([n])]: the two nodes
    now refer to each other through list arguments, which neither
    [__init__] nor [_build_graph] looks into.  Objects 0 ([m]) and 1 ([n]). *)
Definition st_loop : state :=
  let '(m, s) := Latent_init total [VList [VInt 1]] false [] empty_state in
  let '(n, s) := Latent_init total [VList [VLatent m]] false [] s in
  or_empty (update_args m [VList [VLatent n]] s).

(** The state in which [n.compute()] is entered for the second time during
    the top-level [n.compute()]: both activations are still running. *)
Definition st_loop_inner : state :=
  set_computing_flag 0 true (set_computing_flag 1 true st_loop).

(** [n = failing_function()]. *)
Definition st_failing : state :=
  (Latent_init failing_function [] false [] empty_state).2.



(** [a = inc(1); b = inc(a); c = inc(b); c.compute()]: objects 0, 1, 2,
    all cached. *)
Definition st_tower : state :=
  let '(a, s) := Latent_init (int_fn "inc" Z.succ) [VInt 1] false [] empty_state in
  let '(b, s) := Latent_init (int_fn "inc" Z.succ) [VLatent a] false [] s in
  let '(c, s) := Latent_init (int_fn "inc" Z.succ) [VLatent b] false [] s in
  (compute 4 c false false false None s).2.

(** [a = inc(1); a.update_args(2)]. *)
Definition st_updated : state :=
  let '(a, s) := Latent_init (int_fn "inc" Z.succ) [VInt 1] false [] empty_state in
  or_empty (update_args a [VInt 2] s).

(** ** Vocabulary of the further properties *)

(** What a mutator leaves behind, [nd'] being the node with its new
    function or arguments: the node itself is marked and its cache is
    empty, the log is untouched, no [_dependents] set has changed, every
    other object is as before or marked with its cache cleared, and an
    object already in the shared visited set is as before. *)
Definition mutation_effect (s : state) (self : addr) (nd' : Latent) (s' : state) : Prop :=
  calls s' = calls s
  ∧ heap s' !! self = Some (set_latent_data None (set_needs_recomputation true nd'))
  ∧ (∀ x, _dependents <$> heap s' !! x = _dependents <$> heap s !! x)
  ∧ (∀ x, x ≠ self →
          heap s' !! x = heap s !! x ∨ heap s' !! x = mark_stale <$> heap s !! x)
  ∧ (∀ x, x ≠ self → x ∈ default_visited s → heap s' !! x = heap s !! x)
  ∧ (∀ x, x ∈ default_visited s → x ∈ default_visited s').

(** [d.get(k)] on a keyword dictionary. *)
Fixpoint dict_get (k : string) (d : list (string * value)) : option value :=
  match d with
  | [] => None
  | (k', v) :: d' => if String.eqb k k' then Some v else dict_get k d'
  end.


(** A value with no node inside. *)
Fixpoint plain (v : value) : bool :=
  match v with
  | VLatent _ => false
  | VList xs | VTuple xs => forallb plain xs
  | _ => true
  end.

(** The objects a call [self.clear_cache(dependencies, dependents)] is meant
    to reach. *)
Definition reached (h : list Latent) (self : addr) (dependencies dependents : bool)
    (x : addr) : Prop :=
  x = self
  ∨ (dependencies = true ∧ ancestor h self x)
  ∨ (dependents = true ∧ downstream h self x).

(** From [h] to [h'], only caches were emptied, and only on objects in [S]. *)
Definition emptied_within (S : addr → Prop) (h h' : list Latent) : Prop :=
  ∀ x, h' !! x = h !! x ∨ (h' !! x = set_latent_data None <$> h !! x ∧ S x).

(** [self] lies on a cycle of dependencies. *)
Definition on_cycle (h : list Latent) (self : addr) : Prop :=
  ∃ m, ancestor h self m ∧ dependency h m self.

(** From [h] to [h'], nothing but caches changed, and these were emptied. *)
Definition only_emptied (h h' : list Latent) : Prop :=
  ∀ x, cleared_or_same (h !! x) (h' !! x).

(** [a = inc(1); b = inc(a)]: objects 0 and 1, nothing mutated yet. *)
Definition st_pair : state :=
  let '(a, s) := Latent_init (int_fn "inc" Z.succ) [VInt 1] false [] empty_state in
  (Latent_init (int_fn "inc" Z.succ) [VLatent a] false [] s).2.

(** [n = Latent(inc, 1, disable_cache=True)]. *)
Definition st_nocache : state :=
  (Latent_init (int_fn "inc" Z.succ) [VInt 1] true [] empty_state).2.

(** [a = inc(1); b = inc(a); a.update_args(b)]: the two nodes are now
    direct arguments of each other. *)
Definition st_cycle : state := or_empty (update_args 0 [VLatent 1] st_pair).

(** Checks, by evaluation, of conditions on a given store. *)
Definition dependents_ok_check (h : list Latent) : bool :=
  forallb (λ nd, forallb (λ d, d <? length h) (_dependents nd)) h.

Definition decreasing_check (rk : addr → nat) (succs : Latent → list addr)
    (h : list Latent) : bool :=
  forallb (λ n, forallb (λ a, rk a <? rk n) (from_option succs [] (h !! n)))
          (seq 0 (length h)).

(** * Properties *)

(** ** What an evaluation may change in the store *)

Lemma same_but_cache nd nd' :
  set_latent_data None nd' = set_latent_data None nd →
  _func nd' = _func nd ∧ _args nd' = _args nd ∧ _kwargs nd' = _kwargs nd
  ∧ disable_cache nd' = disable_cache nd
  ∧ _needs_recomputation nd' = _needs_recomputation nd
  ∧ _computing nd' = _computing nd ∧ _dependents nd' = _dependents nd.
Proof.
  intros H. destruct nd, nd'. unfold set_latent_data in H. simpl in *.
  by inversion H.
Qed.

Lemma same_but_cache_frozen nd nd' :
  set_latent_data None nd' = set_latent_data None nd → frozen nd' = frozen nd.
Proof.
  intros H. apply same_but_cache in H as (_ & _ & _ & Hd & _ & Hc & _).
  unfold frozen. by rewrite Hd, Hc.
Qed.

Lemma node_evolves_refl o : node_evolves o o.
Proof. destruct o; simpl; auto. Qed.

Lemma node_evolves_trans o1 o2 o3 :
  node_evolves o1 o2 → node_evolves o2 o3 → node_evolves o1 o3.
Proof.
  destruct o1 as [n1|], o2 as [n2|], o3 as [n3|]; simpl; try tauto.
  intros [E12 F12] [E23 F23]. split; [congruence|].
  intros Hf. pose proof (same_but_cache_frozen _ _ E12) as Hf2.
  rewrite Hf in Hf2. destruct (F23 Hf2) as [->| ->]; auto.
Qed.

Lemma cleared_or_same_evolves o o' : cleared_or_same o o' → node_evolves o o'.
Proof.
  intros [->| ->]; [apply node_evolves_refl|].
  destruct o as [nd|]; simpl; auto.
Qed.

Lemma cleared_or_same_trans o1 o2 o3 :
  cleared_or_same o1 o2 → cleared_or_same o2 o3 → cleared_or_same o1 o3.
Proof.
  intros [->| ->] [->| ->]; unfold cleared_or_same; auto.
  right. by destruct o1.
Qed.

Lemma evolves_refl s : evolves s s.
Proof. repeat split; auto using node_evolves_refl. Qed.

Lemma evolves_trans s1 s2 s3 : evolves s1 s2 → evolves s2 s3 → evolves s1 s3.
Proof.
  intros (D12 & C12 & H12) (D23 & C23 & H23). repeat split.
  - congruence.
  - by etrans.
  - intros x. eapply node_evolves_trans; eauto.
Qed.

Lemma evolves_length s s' : evolves s s' → length (heap s') = length (heap s).
Proof.
  intros (_ & _ & H).
  destruct (decide (length (heap s') = length (heap s))) as [|Hne]; [done|].
  exfalso.
  destruct (decide (length (heap s) < length (heap s'))).
  - specialize (H (length (heap s))).
    rewrite (lookup_ge_None_2 (heap s)) in H by lia.
    destruct (lookup_lt_is_Some_2 (heap s') (length (heap s))) as [? Hx]; [lia|].
    by rewrite Hx in H.
  - specialize (H (length (heap s'))).
    rewrite (lookup_ge_None_2 (heap s')) in H by lia.
    destruct (lookup_lt_is_Some_2 (heap s) (length (heap s'))) as [? Hx]; [lia|].
    by rewrite Hx in H.
Qed.

(** *** The staleness resolver only empties caches *)

Lemma alter_clear_lookup (h : list Latent) (a x : addr) :
  cleared_or_same (h !! x) (alter (set_latent_data None) a h !! x).
Proof.
  rewrite list_lookup_alter. case_decide; subst; [by right | by left].
Qed.

Lemma clear_fold_lookup (D : list addr) (ns : list (addr * node_attr))
    (h : list Latent) (x : addr) :
  cleared_or_same (h !! x)
    (foldl (λ h p, if bool_decide (p.1 ∈ D)
                   then alter (set_latent_data None) (delayed_obj p.2) h else h)
           h ns !! x).
Proof.
  revert h. induction ns as [|p ns IH]; intros h; simpl; [by left|].
  eapply cleared_or_same_trans; [|apply IH].
  case_bool_decide; [apply alter_clear_lookup | by left].
Qed.

Lemma correct_computed_status_evolves G s :
  evolves s (correct_computed_status G s).2.
Proof.
  unfold correct_computed_status; simpl. repeat split; simpl; auto.
  intros x. apply cleared_or_same_evolves, clear_fold_lookup.
Qed.

Lemma correct_computed_status_cleared G s x :
  cleared_or_same (heap s !! x) (heap (correct_computed_status G s).2 !! x).
Proof. unfold correct_computed_status; simpl. apply clear_fold_lookup. Qed.

(** *** The paths through one activation of [compute] *)

Lemma compute_body_path rec self fr rd dc md s r s' :
  compute_body rec self fr rd dc md s = (r, s') →
  compute_path rec self fr rd dc md s r s'.
Proof.
  unfold compute_body.
  destruct (heap s !! self) as [nd|] eqn:Hnd;
    [|intros [= <- <-]; by constructor].
  destruct (_computing nd) eqn:Hc;
    [intros [= <- <-]; by econstructor|].
  destruct (get_dependency_graph (heap s) self) as [G|] eqn:HG;
    [|intros [= <- <-]; by econstructor].
  destruct (validate_no_cycles G) as [e|] eqn:Hv;
    [intros [= <- <-]; by econstructor|].
  destruct (correct_computed_status G s) as [G1 s1] eqn:Hcs.
  assert (G1 = (correct_computed_status G s).1) as -> by by rewrite Hcs.
  assert (s1 = (correct_computed_status G s).2) as -> by by rewrite Hcs.
  destruct (heap (correct_computed_status G s).2 !! self) as [nd1|] eqn:Hnd1;
    [|intros [= <- <-]; by econstructor].
  destruct fr, rd; simpl;
    try (destruct (try_block _ _ _ _ _ _) as [r3 s3] eqn:Htry;
         intros [= <- <-]; eapply path_slow; eauto; tauto).
  case_bool_decide as Hup; simpl;
    [|destruct (try_block _ _ _ _ _ _) as [r3 s3] eqn:Htry;
      intros [= <- <-]; eapply path_slow; eauto; tauto].
  case_bool_decide as Hld; simpl.
  - destruct Hld as [v Hld]. rewrite Hld. intros [= <- <-].
    eapply path_hit; eauto.
  - destruct (try_block _ _ _ _ _ _) as [r3 s3] eqn:Htry.
    intros [= <- <-]. eapply path_slow; eauto.
    do 3 right. destruct (latent_data nd1); [|done].
    exfalso. apply Hld. eauto.
Qed.

(** *** Induction over nested values *)

Lemma value_nested_ind (P : value → Prop) :
  P VNone → (∀ z, P (VInt z)) → (∀ s, P (VStr s)) → (∀ a, P (VLatent a)) →
  (∀ xs, Forall P xs → P (VList xs)) →
  (∀ xs, Forall P xs → P (VTuple xs)) →
  ∀ v, P v.
Proof.
  intros HN HI HS HL HLi HT. fix IH 1.
  intros [|z|s|a|xs|xs];
    [apply HN | apply HI | apply HS | apply HL | apply HLi | apply HT].
  - induction xs as [|x xs IHxs]; constructor; [apply IH | apply IHxs].
  - induction xs as [|x xs IHxs]; constructor; [apply IH | apply IHxs].
Qed.

(** *** Evaluation preserves [evolves] *)

Lemma evolving_ret {A} (a : A) : evolving (ret a).
Proof. intros s r s' [= <- <-]. apply evolves_refl. Qed.

Lemma evolving_raise {A} (e : exn) : evolving (@raise A e).
Proof. intros s r s' [= <- <-]. apply evolves_refl. Qed.

Lemma evolving_bind {A B} (m : M A) (k : A → M B) :
  evolving m → (∀ a, evolving (k a)) → evolving (bind m k).
Proof.
  intros Hm Hk s r s'. unfold bind.
  destruct (m s) as [[a|e|] s1] eqn:E; specialize (Hm _ _ _ E).
  - intros Hk'. eapply evolves_trans; [done|]. by eapply Hk.
  - by intros [= <- <-].
  - by intros [= <- <-].
Qed.

Lemma evolving_mapM {A B} (f : A → M B) (l : list A) :
  Forall (λ x, evolving (f x)) l → evolving (mapM f l).
Proof.
  induction 1 as [|x l Hx Hl IH]; simpl.
  - apply evolving_ret.
  - apply evolving_bind; [done|]. intros y.
    apply evolving_bind; [done|]. intros ys. apply evolving_ret.
Qed.

Lemma evolving_get_node self : evolving (get_node self).
Proof.
  intros s r s'. unfold get_node.
  destruct (heap s !! self); intros [= <- <-]; apply evolves_refl.
Qed.

Lemma evolving_compute_nested rec :
  rec_evolving rec →
  ∀ obj fr dc depth md, evolving (compute_nested rec obj fr dc depth md).
Proof.
  intros Hrec obj. induction obj as [| | | |xs IH|xs IH] using value_nested_ind;
    intros fr dc depth md; simpl;
    destruct (depth_exceeded depth md); try apply evolving_ret.
  - apply Hrec.
  - apply evolving_bind; [|intros; apply evolving_ret].
    apply evolving_mapM. eapply Forall_impl; [exact IH|]. simpl. auto.
  - apply evolving_bind; [|intros; apply evolving_ret].
    apply evolving_mapM. eapply Forall_impl; [exact IH|]. simpl. auto.
Qed.

(** The [try] block: the arguments are resolved, reaching a state [sa];
    then either nothing more happens (an argument failed), or the callable
    is entered and fails, or it returns and the result is stored or not. *)
Lemma try_block_inv rec self rd dc md s r s' :
  rec_evolving rec →
  try_block rec self rd dc md s = (r, s') →
  ∃ sa, evolves s sa
    ∧ (((∀ v, r ≠ Returned v) ∧ (s' = sa ∨ s' = log_call self sa))
       ∨ (∃ nd v, heap sa !! self = Some nd ∧ r = Returned v
            ∧ s' = (if negb (disable_cache nd) && negb dc
                    then LatentData_set self v (log_call self sa)
                    else log_call self sa))).
Proof.
  intros Hrec. unfold try_block.
  set (fa := λ arg, compute_nested rec arg rd dc 0 md).
  set (fk := λ kv : string * value,
               bind (compute_nested rec kv.2 rd dc 0 md) (λ v, ret (kv.1, v))).
  assert (Ha : ∀ l, evolving (mapM fa l)).
  { intros l. apply evolving_mapM, Forall_forall. intros x _.
    by apply evolving_compute_nested. }
  assert (Hk : ∀ l, evolving (mapM fk l)).
  { intros l. apply evolving_mapM, Forall_forall. intros x _.
    apply evolving_bind; [by apply evolving_compute_nested|].
    intros; apply evolving_ret. }
  unfold bind at 1. unfold get_node at 1.
  destruct (heap s !! self) as [nd0|] eqn:Hnd0; simpl.
  2:{ intros [= <- <-]. exists s. split; [apply evolves_refl|]. left.
      split; [done | by left]. }
  unfold bind at 1.
  destruct (mapM fa (_args nd0) s) as [[cargs|e|] s1] eqn:E1;
    pose proof (Ha _ _ _ _ E1) as Hs1.
  2,3: intros [= <- <-]; exists s1; split; [done|]; left;
       split; [done | by left].
  unfold bind at 1. unfold get_node at 1.
  destruct (heap s1 !! self) as [nd1|] eqn:Hnd1; simpl.
  2:{ intros [= <- <-]. exists s1. split; [done|]. left.
      split; [done | by left]. }
  unfold bind at 1.
  destruct (mapM fk (_kwargs nd1) s1) as [[ckw|e|] s2] eqn:E2;
    pose proof (Hk _ _ _ _ E2) as Hs2;
    pose proof (evolves_trans _ _ _ Hs1 Hs2) as Hs12.
  2,3: intros [= <- <-]; exists s2; split; [done|]; left;
       split; [done | by left].
  unfold bind at 1. unfold get_node at 1.
  destruct (heap s2 !! self) as [nd2|] eqn:Hnd2; simpl.
  2:{ intros [= <- <-]. exists s2. split; [done|]. left.
      split; [done | by left]. }
  unfold bind at 1. unfold modify at 1. simpl.
  destruct (body (_func nd2) cargs ckw) as [res|e] eqn:Hbody.
  - unfold bind, modify, ret.
    destruct (negb (disable_cache nd2) && negb dc) eqn:Hst; simpl;
      intros [= <- <-]; exists s2; (split; [done|]); right;
      exists nd2, res; rewrite Hst; auto.
  - intros [= <- <-]. exists s2. split; [done|]. left. split; [done | by right].
Qed.

Lemma lookup_set_computing_flag self b s x :
  heap (set_computing_flag self b s) !! x
  = if decide (self = x) then set_computing b <$> heap s !! self
    else heap s !! x.
Proof. unfold set_computing_flag; simpl. apply list_lookup_alter. Qed.

Lemma lookup_LatentData_set self v s x :
  heap (LatentData_set self v s) !! x
  = if decide (self = x) then set_latent_data (Some v) <$> heap s !! self
    else heap s !! x.
Proof. unfold LatentData_set; simpl. apply list_lookup_alter. Qed.

(** What the [try] block did, seen from outside: only the cache of [self]
    can have been written, and only by a successful, caching call. *)
Lemma try_block_frame rec self rd dc md s r s' :
  rec_evolving rec →
  try_block rec self rd dc md s = (r, s') →
  ∃ sa, evolves s sa
    ∧ default_visited s' = default_visited sa
    ∧ calls sa `suffix_of` calls s'
    ∧ (∀ v, r = Returned v → calls s' = self :: calls sa)
    ∧ (∀ x, x ≠ self → heap s' !! x = heap sa !! x)
    ∧ (heap s' !! self = heap sa !! self
       ∨ ∃ nd v, heap sa !! self = Some nd
           ∧ heap s' !! self = Some (set_latent_data (Some v) nd)
           ∧ disable_cache nd = false ∧ dc = false ∧ r = Returned v).
Proof.
  intros Hrec Htry.
  destruct (try_block_inv _ _ _ _ _ _ _ _ Hrec Htry) as (sa & Hsa & Hcase).
  exists sa. split; [done|].
  destruct Hcase as [[Hr [->| ->]]|(nd & v & Hnd & -> & ->)].
  - split_and!; auto; intros v ->; by destruct (Hr v).
  - split_and!; simpl; auto; try (by apply suffix_cons_r);
      intros v ->; by destruct (Hr v).
  - destruct (disable_cache nd) eqn:Hd; simpl;
      [|destruct dc eqn:Hdc; simpl].
    1,2: split_and!; simpl; auto; by apply suffix_cons_r.
    split_and!; simpl; auto; try (by apply suffix_cons_r).
    + intros x Hx. rewrite list_lookup_alter_ne; auto.
    + right. exists nd, v. rewrite list_lookup_alter_eq. simpl. rewrite Hnd. by split_and!.
Qed.

Lemma compute_body_evolving rec :
  rec_evolving rec → rec_evolving (compute_body rec).
Proof.
  intros Hrec self fr rd dc md s r s' Hc.
  apply compute_body_path in Hc.
  destruct Hc as [ | | | | | |nd G nd1 r s3 Hnd Hcomp HG Hval Hnd1 Hslow Htry];
    try apply evolves_refl; try apply correct_computed_status_evolves.
  pose proof (correct_computed_status_evolves G s) as H1.
  set (s1 := (correct_computed_status G s).2) in *.
  destruct (try_block_frame _ _ _ _ _ _ _ _ Hrec Htry)
    as (sa & Hsa & Hdv & Hcalls & _ & Hother & Hself).
  destruct H1 as (D1 & C1 & P1). destruct Hsa as (Da & Ca & Pa).
  split_and!.
  - simpl. rewrite Hdv, Da. simpl. done.
  - etrans; [exact C1|]. etrans; [|exact Hcalls]. exact Ca.
  - intros x. rewrite lookup_set_computing_flag.
    destruct (decide (self = x)) as [<-|Hne].
    + specialize (P1 self). specialize (Pa self).
      rewrite lookup_set_computing_flag in Pa.
      rewrite decide_True in Pa by done.
      rewrite Hnd in *. rewrite Hnd1 in *. simpl in *.
      destruct (heap sa !! self) as [nda|] eqn:Hnda; [|done].
      destruct P1 as [E1 F1]. destruct Pa as [Ea Fa].
      apply same_but_cache in E1 as (? & ? & ? & ? & ? & ? & ?).
      apply same_but_cache in Ea as (? & ? & ? & ? & ? & ? & ?).
      simpl in *.
      destruct Hself as [->|(nd' & v & [= <-] & -> & Hd & _)]; simpl.
      * split.
        { destruct nd, nd1, nda; simpl in *; subst.
          unfold set_latent_data, set_computing; simpl. done. }
        intros Hf. unfold frozen in Hf. rewrite Hcomp in Hf. simpl in Hf.
        destruct Fa as [->| ->]; [done|by left|].
        apply F1. unfold frozen. by rewrite Hcomp.
      * split.
        { destruct nd, nd1, nda; simpl in *; subst.
          unfold set_latent_data, set_computing; simpl. done. }
        intros Hf. unfold frozen in Hf. rewrite Hcomp in Hf. simpl in Hf.
        congruence.
    + rewrite (Hother x) by done.
      eapply node_evolves_trans; [apply P1|].
      specialize (Pa x). rewrite lookup_set_computing_flag in Pa.
      by rewrite decide_False in Pa.
Qed.

Lemma compute_evolving fuel : rec_evolving (compute fuel).
Proof.
  induction fuel as [|fuel IH]; simpl; apply compute_body_evolving; [|done].
  intros a fr rd dc md s r s' [= <- <-]. apply evolves_refl.
Qed.

(** ** The staleness resolver *)

Lemma elem_of_stale_nodes G a :
  a ∈ stale_nodes G ↔ ∃ attr, (a, attr) ∈ nodes G ∧ needs_recomputation attr = true.
Proof.
  unfold stale_nodes. rewrite list_elem_of_fmap. split.
  - intros ([a' attr] & -> & Hin). apply list_elem_of_filter in Hin as [Hn Hin].
    eauto.
  - intros (attr & Hin & Hn). exists (a, attr). split; [done|].
    by apply list_elem_of_filter.
Qed.

(** A node marked in the graph is still marked after the correction, hence
    reported by [get_updated_nodes]. *)
Lemma stale_nodes_corrected G s a :
  a ∈ stale_nodes G → a ∈ get_updated_nodes (correct_computed_status G s).1.
Proof.
  unfold get_updated_nodes. rewrite !elem_of_stale_nodes.
  intros (attr & Hin & Hn). unfold correct_computed_status; simpl.
  destruct (decide (a ∈ stale_dependents G)) as [HD|HD].
  - exists (attr_mark_stale attr). split; [|done].
    apply list_elem_of_fmap. exists (a, attr). split; [|done].
    simpl. by rewrite bool_decide_eq_true_2.
  - exists attr. split; [|done].
    apply list_elem_of_fmap. exists (a, attr). split; [|done].
    simpl. by rewrite bool_decide_eq_false_2.
Qed.

Lemma successors_nil G : successors G [] = [].
Proof.
  unfold successors. induction (edges G) as [|e es IH]; [done|].
  rewrite filter_cons. destruct (decide (e.1 ∈ [])) as [H|H]; [|done].
  by apply elem_of_nil in H.
Qed.

Lemma descendants_nil fuel G : descendants fuel G [] = [].
Proof.
  induction fuel as [|fuel IH]; simpl; [done|].
  by rewrite successors_nil.
Qed.

Lemma stale_dependents_nil G : stale_nodes G = [] → stale_dependents G = [].
Proof.
  intros H. unfold stale_dependents. rewrite H, successors_nil. simpl.
  apply descendants_nil.
Qed.

(** With nothing marked, the correction touches neither graph nor store. *)
Lemma correct_computed_status_clean G s :
  stale_nodes G = [] → (correct_computed_status G s).2 = s.
Proof.
  intros H. unfold correct_computed_status; simpl.
  rewrite (stale_dependents_nil _ H).
  assert (Hfold : ∀ (ns : list (nat * node_attr)) (h : list Latent),
             foldl (λ h p, if bool_decide (p.1 ∈ [])
                           then alter (set_latent_data None) (delayed_obj p.2) h
                           else h) h ns = h).
  { induction ns as [|p ns IH]; intros h; cbn [foldl]; [done|].
    rewrite bool_decide_eq_false_2; [apply IH | apply not_elem_of_nil]. }
  rewrite Hfold. by destruct s.
Qed.

Lemma updated_nodes_nil_clean G s :
  get_updated_nodes (correct_computed_status G s).1 = [] → stale_nodes G = [].
Proof.
  intros H. destruct (stale_nodes G) as [|a l] eqn:E; [done|]. exfalso.
  assert (Ha : a ∈ stale_nodes G) by (rewrite E; left).
  apply (stale_nodes_corrected G s) in Ha. rewrite H in Ha.
  by apply elem_of_nil in Ha.
Qed.

(** ** The graph builder reaches every ancestor *)

Lemma add_node_ok h G n nd :
  h !! n = Some nd → graph_ok h G → graph_ok h (add_node n (attr_of n nd) G).
Proof.
  intros Hn HG x attr. unfold add_node; simpl.
  destruct (has_node G n).
  - rewrite list_elem_of_fmap. intros ([x' a'] & Heq & Hin). simpl in Heq.
    case_bool_decide; simplify_eq; eauto.
  - rewrite elem_of_app, list_elem_of_singleton. intros [Hin|[= -> ->]]; eauto.
Qed.

Lemma add_node_keys G n a x :
  x ∈ (nodes G).*1 ∨ x = n → x ∈ (nodes (add_node n a G)).*1.
Proof.
  unfold add_node, has_node; simpl. case_bool_decide as Hn.
  - intros [Hx| ->].
    + apply list_elem_of_fmap in Hx as ([x' a'] & -> & Hin).
      apply list_elem_of_fmap.
      destruct (decide (x' = n)) as [->|Hne].
      * exists (n, a). split; [done|]. apply list_elem_of_fmap.
        exists (n, a'). simpl. by rewrite bool_decide_eq_true_2.
      * exists (x', a'). split; [done|]. apply list_elem_of_fmap.
        exists (x', a'). simpl. by rewrite bool_decide_eq_false_2.
    + apply list_elem_of_fmap in Hn as ([x' a'] & -> & Hin).
      apply list_elem_of_fmap. exists (x', a). split; [done|].
      apply list_elem_of_fmap. exists (x', a'). simpl.
      by rewrite bool_decide_eq_true_2.
  - rewrite fmap_app, elem_of_app. simpl. rewrite list_elem_of_singleton. tauto.
Qed.

Lemma build_fold_None fuel h self args :
  foldl (build_step fuel h self) None args = None.
Proof. induction args; simpl; auto. Qed.

Lemma build_post_refl h G v : build_post h G v G v.
Proof. unfold build_post. split_and!; auto. intros; done. Qed.

Lemma build_post_trans h G1 v1 G2 v2 G3 v3 :
  build_post h G1 v1 G2 v2 → build_post h G2 v2 G3 v3 →
  build_post h G1 v1 G3 v3.
Proof.
  intros (A1 & B1 & C1 & D1 & E1) (A2 & B2 & C2 & D2 & E2).
  unfold build_post. split_and!; auto.
  - intros x Hx. destruct (D2 x Hx) as [H2|H2]; auto.
    destruct (D1 x H2); auto.
  - intros x Hx Hnx. destruct (decide (x ∈ v2)) as [H2|H2]; auto.
    intros y Hy Hs. apply A2. by apply (E1 x H2 Hnx).
Qed.

Lemma build_post_add_edge h G v G' v' a b :
  build_post h G v G' v' → build_post h G v (add_edge a b G') v'.
Proof. done. Qed.

Lemma build_graph_spec fuel h :
  ∀ self G v G' v',
    _build_graph fuel h self (G, v) = Some (G', v') →
    build_post h G v G' v' ∧ (is_Some (h !! self) → self ∈ v').
Proof.
  induction fuel as [|fuel IH]; intros self G v G' v'; simpl; [done|].
  case_bool_decide as Hvis.
  { intros [= <- <-]. split; [apply build_post_refl | done]. }
  destruct (h !! self) as [nd|] eqn:Hnd.
  2:{ intros [= <- <-]. split; [apply build_post_refl|]. by intros [? ?]. }
  fold (build_step fuel h self).
  assert (Hfold : ∀ args G1 v1,
    foldl (build_step fuel h self) (Some (G1, v1)) args = Some (G', v') →
    build_post h G1 v1 G' v' ∧ (∀ y, y ∈ args → is_Some (h !! y) → y ∈ v')).
  { induction args as [|a args IHargs]; intros G1 v1; simpl.
    - intros [= <- <-]. split; [apply build_post_refl|].
      intros y Hy. by apply elem_of_nil in Hy.
    - destruct (_build_graph fuel h a (G1, v1)) as [[G2 v2]|] eqn:Ea;
        [|by rewrite build_fold_None].
      simpl. intros Hrest.
      destruct (IH _ _ _ _ _ Ea) as [P12 Ha].
      destruct (IHargs _ _ Hrest) as [P23 Hargs].
      split.
      + eapply build_post_trans; [|exact P23].
        by apply build_post_add_edge.
      + intros y [->|Hy]%elem_of_cons Hs; [|by apply Hargs].
        destruct P23 as (A23 & _). apply A23. by apply Ha. }
  intros Hrun. destruct (Hfold _ _ _ Hrun) as [(A & B & C & D & E) Hargs].
  split; [|intros _; apply A; left].
  unfold build_post. split_and!.
  - intros x Hx. apply A. by right.
  - intros HG. apply B. by apply add_node_ok.
  - intros x Hx. apply C, add_node_keys. by left.
  - intros x Hx. destruct (D x Hx) as [[->|Hv]%elem_of_cons|Hk]; auto.
    right. apply C, add_node_keys. by right.
  - intros x Hx Hnv. destruct (decide (x = self)) as [->|Hne].
    + intros y (nd' & Hnd' & Hy) Hs. rewrite Hnd in Hnd'. simplify_eq.
      by apply Hargs.
    + apply E; [done|]. rewrite elem_of_cons. tauto.
Qed.

(** *** The builder never runs out of fuel *)

Lemma unvisited_mono h v v' :
  (∀ x, x ∈ v → x ∈ v') → unvisited h v' ≤ unvisited h v.
Proof.
  intros Hsub. unfold unvisited.
  rewrite <- (list_filter_filter_l (λ a, a ∉ v') (λ a, a ∉ v)) by naive_solver.
  apply length_filter.
Qed.

Lemma unvisited_cons h v self :
  is_Some (h !! self) → self ∉ v → unvisited h (self :: v) < unvisited h v.
Proof.
  intros Hs Hv. unfold unvisited.
  rewrite <- (list_filter_filter_l (λ a, a ∉ self :: v) (λ a, a ∉ v)).
  - apply (length_filter_lt _ _ self).
    + apply list_elem_of_filter. split; [done|].
      apply elem_of_seq. apply lookup_lt_is_Some in Hs. lia.
    + intros H. apply H. left.
  - intros x Hx Hin. apply Hx. by right.
Qed.

Lemma build_graph_total fuel h :
  ∀ self G v, unvisited h v < fuel → is_Some (_build_graph fuel h self (G, v)).
Proof.
  induction fuel as [|fuel IH]; intros self G v Hlt; simpl; [lia|].
  case_bool_decide as Hvis; [done|].
  destruct (h !! self) as [nd|] eqn:Hnd; [|done].
  fold (build_step fuel h self).
  assert (Hfold : ∀ args G1 v1, unvisited h v1 < fuel →
    is_Some (foldl (build_step fuel h self) (Some (G1, v1)) args)).
  { induction args as [|a args IHargs]; intros G1 v1 Hv1; simpl; [done|].
    destruct (IH a G1 v1 Hv1) as [[G2 v2] Ea]. rewrite Ea. simpl.
    apply IHargs.
    destruct (build_graph_spec _ _ _ _ _ _ _ Ea) as [(A & _) _].
    pose proof (unvisited_mono h v1 v2 A). lia. }
  apply Hfold.
  assert (unvisited h (self :: v) < unvisited h v); [|lia].
  apply unvisited_cons; [by rewrite Hnd | done].
Qed.

Lemma get_dependency_graph_total h self :
  is_Some (get_dependency_graph h self).
Proof.
  unfold get_dependency_graph.
  destruct (build_graph_total (S (length h)) h self empty_graph []) as [gv Hgv].
  - unfold unvisited. pose proof (length_filter (λ a, a ∉ []) (seq 0 (length h))).
    rewrite length_seq in *. lia.
  - rewrite Hgv. done.
Qed.


(** ** Facts about one call of [compute] *)

Lemma compute_unfold fuel : compute fuel = compute_body (compute_below fuel).
Proof. by destruct fuel. Qed.

Lemma compute_below_evolving fuel : rec_evolving (compute_below fuel).
Proof.
  destruct fuel; simpl; [|apply compute_evolving].
  intros a fr rd dc md s r s' [= <- <-]. apply evolves_refl.
Qed.

Lemma reraise_returned self r s v : reraise self r s = Returned v → r = Returned v.
Proof. destruct r; simpl; [done| |done]. by destruct (heap s !! self). Qed.

(** After the slow path returned a value, the newest entry of the log that
    lies above the old log is the callable of [self] itself. *)
Lemma slow_path_executed rec self rd dc md s1 r s3 v :
  rec_evolving rec →
  try_block rec self rd dc md (set_computing_flag self true s1) = (r, s3) →
  reraise self r s3 = Returned v →
  ∃ mid, calls (set_computing_flag self false s3) = self :: mid ++ calls s1.
Proof.
  intros Hrec Htry Hr. apply reraise_returned in Hr as ->.
  destruct (try_block_frame _ _ _ _ _ _ _ _ Hrec Htry)
    as (sa & (_ & [mid Hmid] & _) & _ & _ & Hcalls & _).
  exists mid. simpl. rewrite (Hcalls v eq_refl), Hmid. done.
Qed.

(** The cache of [self] after a call on [self]: emptied, untouched, or
    holding the value this call computed and returned. *)
Lemma compute_body_self_cache rec self fr rd dc md s r s' nd :
  rec_evolving rec →
  heap s !! self = Some nd →
  compute_body rec self fr rd dc md s = (r, s') →
  ∃ nd', heap s' !! self = Some nd'
    ∧ ((latent_data nd' = None ∨ latent_data nd' = latent_data nd)
       ∨ (∃ v, r = Returned v ∧ latent_data nd' = Some v
            ∧ dc = false ∧ disable_cache nd = false)).
Proof.
  intros Hrec Hnd Hc. apply compute_body_path in Hc.
  assert (Hclear : ∀ G, ∃ nd1, heap (correct_computed_status G s).2 !! self = Some nd1
             ∧ (latent_data nd1 = None ∨ latent_data nd1 = latent_data nd)
             ∧ disable_cache nd1 = disable_cache nd).
  { intros G. destruct (correct_computed_status_cleared G s self) as [->| ->];
      rewrite Hnd; simpl; eauto. }
  destruct Hc as [ | | | | G0 G | nd0 G nd1 v | nd0 G nd1 r s3 _ _ _ _ Hnd1 _ Htry];
    try (exists nd; split; [done|]; by left; right).
  - destruct (Hclear G) as (ndc & Hc1 & _). congruence.
  - destruct (Hclear G) as (ndc & Hc1 & Hl & _). exists ndc. split; [done|].
    by left.
  - destruct (Hclear G) as (ndc & Hc1 & Hl & Hd1). rewrite Hnd1 in Hc1.
    injection Hc1 as <-.
    destruct (try_block_frame _ _ _ _ _ _ _ _ Hrec Htry)
      as (sa & (_ & _ & Pa) & _ & _ & _ & _ & Hself).
    specialize (Pa self). rewrite lookup_set_computing_flag in Pa.
    rewrite decide_True in Pa by done. rewrite Hnd1 in Pa. simpl in Pa.
    destruct (heap sa !! self) as [nda|] eqn:Hnda; [|done].
    destruct Pa as [Ea Fa].
    apply same_but_cache in Ea as (_ & _ & _ & Hda & _). simpl in Hda.
    rewrite lookup_set_computing_flag, decide_True by done.
    destruct Hself as [->|(nd' & v & [= <-] & -> & Hd & Hdc & ->)]; simpl.
    + exists (set_computing false nda). split; [done|]. left. simpl.
      destruct Fa as [->| ->]; [done|by left|]. simpl.
      destruct Hl as [->| ->]; auto.
    + eexists. split; [done|]. right. exists v. simpl. split_and!; auto.
      congruence.
Qed.

Lemma lookup_evolves s s' x nd :
  evolves s s' → heap s !! x = Some nd →
  ∃ nd', heap s' !! x = Some nd'
    ∧ set_latent_data None nd' = set_latent_data None nd.
Proof.
  intros (_ & _ & H) Hx. specialize (H x). rewrite Hx in H.
  destruct (heap s' !! x) as [nd'|]; [|done]. destruct H. eauto.
Qed.

(** ** Termination: enough fuel always gives an answer *)

Lemma evolves_Forall2 s s' :
  evolves s s' →
  Forall2 (λ nd nd', set_latent_data None nd' = set_latent_data None nd)
          (heap s) (heap s').
Proof.
  intros Hev. apply Forall2_same_length_lookup_2.
  - symmetry. by apply evolves_length.
  - intros i x y Hx Hy. destruct Hev as (_ & _ & H). specialize (H i).
    rewrite Hx, Hy in H. by destruct H.
Qed.

Lemma idle_Forall2 (h h' : list Latent) :
  Forall2 (λ nd nd', set_latent_data None nd' = set_latent_data None nd) h h' →
  idle h' = idle h.
Proof.
  unfold idle. induction 1 as [|nd nd' h h' Heq _ IH]; [done|].
  apply same_but_cache in Heq as (_ & _ & _ & _ & _ & Hc & _).
  rewrite !filter_cons, Hc. destruct (decide (_computing nd = false)); simpl; lia.
Qed.

Lemma node_ok_Forall2 L (h h' : list Latent) :
  Forall2 (λ nd nd', set_latent_data None nd' = set_latent_data None nd) h h' →
  forallb (node_ok L) h = true → forallb (node_ok L) h' = true.
Proof.
  induction 1 as [|nd nd' h h' Heq _ IH]; [done|]. simpl.
  intros [Hnd Hh]%andb_prop. rewrite (IH Hh), andb_true_r.
  apply same_but_cache in Heq as (_ & Ha & Hk & _).
  unfold node_ok in *. by rewrite Ha, Hk.
Qed.

Lemma within_evolves n s s' : evolves s s' → within n s → within n s'.
Proof.
  intros Hev [Hok Hidle]. pose proof (evolves_Forall2 _ _ Hev) as HF.
  split.
  - unfold store_ok. rewrite (evolves_length _ _ Hev).
    by apply (node_ok_Forall2 _ _ _ HF).
  - by rewrite (idle_Forall2 _ _ HF).
Qed.

Lemma idle_set_computing (h : list Latent) self nd :
  h !! self = Some nd → _computing nd = false →
  S (idle (alter (set_computing true) self h)) = idle h.
Proof.
  unfold idle. revert self.
  induction h as [|x h IH]; intros [|self] Hx Hc; simplify_eq/=.
  - rewrite !filter_cons. simpl. rewrite Hc. simpl. done.
  - rewrite !filter_cons.
    destruct (decide (_computing x = false)); simpl; rewrite <- (IH self Hx Hc);
      done.
Qed.

Lemma store_ok_lookup h x nd :
  store_ok h = true → h !! x = Some nd → node_ok (length h) nd = true.
Proof.
  unfold store_ok. intros H Hx.
  rewrite forallb_forall in H. apply H, list_elem_of_In.
  by eapply list_elem_of_lookup_2.
Qed.

Lemma forallb_Forall {A} (f : A → bool) (l : list A) :
  forallb f l = true ↔ Forall (λ x, f x = true) l.
Proof.
  induction l as [|x l IH]; simpl; [by split|].
  rewrite andb_true_iff, Forall_cons, IH. done.
Qed.

Lemma store_ok_set_computing h self b :
  store_ok h = true → store_ok (alter (set_computing b) self h) = true.
Proof.
  unfold store_ok. rewrite length_alter, !forallb_Forall.
  intros H. apply Forall_alter; [done|]. by intros x _.
Qed.

Lemma mapM_safe {A B} (f : A → M B) n L (l : list A) :
  Forall (λ x, evolving (f x)
               ∧ ∀ s, within n s → length (heap s) = L → (f x s).1 ≠ NoResult) l →
  ∀ s, within n s → length (heap s) = L → (mapM f l s).1 ≠ NoResult.
Proof.
  induction 1 as [|x l [Hev Hx] _ IH]; intros s Hw HL; simpl; [done|].
  unfold bind at 1. specialize (Hx s Hw HL).
  destruct (f x s) as [[y|e|] s1] eqn:E; simpl in *; [|done|done].
  pose proof (Hev _ _ _ E) as Hs1.
  assert (Hw1 : within n s1) by by eapply within_evolves.
  assert (HL1 : length (heap s1) = L) by (rewrite <- HL; by apply evolves_length).
  specialize (IH s1 Hw1 HL1). unfold bind.
  by destruct (mapM f l s1) as [[ys|e|] s2].
Qed.

Lemma compute_nested_safe rec n L :
  rec_evolving rec → rec_safe n rec →
  ∀ obj fr dc depth md s,
    refs_ok L obj = true → within n s → length (heap s) = L →
    (compute_nested rec obj fr dc depth md s).1 ≠ NoResult.
Proof.
  intros Hev Hrec obj.
  induction obj as [|z|str|a|xs IH|xs IH] using value_nested_ind;
    intros fr dc depth md s Hok Hw HL; simpl;
    destruct (depth_exceeded depth md); try done.
  - apply Hrec; [done|]. simpl in Hok. apply bool_decide_eq_true in Hok. lia.
  - unfold bind.
    assert (Hm : (mapM (λ item, compute_nested rec item fr dc (depth + 1) md) xs s).1
                 ≠ NoResult).
    { apply (mapM_safe _ n L); [|done|done].
      simpl in Hok. rewrite forallb_forall in Hok.
      apply Forall_forall. intros x Hx. split.
      - by apply evolving_compute_nested.
      - intros s0 Hw0 HL0. rewrite Forall_forall in IH.
        apply IH; [done| |done|done]. by apply Hok, list_elem_of_In. }
    by destruct (mapM _ xs s) as [[ys|e|] s1].
  - unfold bind.
    assert (Hm : (mapM (λ item, compute_nested rec item fr dc (depth + 1) md) xs s).1
                 ≠ NoResult).
    { apply (mapM_safe _ n L); [|done|done].
      simpl in Hok. rewrite forallb_forall in Hok.
      apply Forall_forall. intros x Hx. split.
      - by apply evolving_compute_nested.
      - intros s0 Hw0 HL0. rewrite Forall_forall in IH.
        apply IH; [done| |done|done]. by apply Hok, list_elem_of_In. }
    by destruct (mapM _ xs s) as [[ys|e|] s1].
Qed.

Lemma try_block_safe rec n self rd dc md s :
  rec_evolving rec → rec_safe n rec →
  within n s → self < length (heap s) →
  (try_block rec self rd dc md s).1 ≠ NoResult.
Proof.
  intros Hev Hrec Hw Hself. unfold try_block.
  set (fa := λ arg, compute_nested rec arg rd dc 0 md).
  set (fk := λ kv : string * value,
               bind (compute_nested rec kv.2 rd dc 0 md) (λ v, ret (kv.1, v))).
  assert (Ha : ∀ l, evolving (mapM fa l)).
  { intros l. apply evolving_mapM, Forall_forall. intros x _.
    by apply evolving_compute_nested. }
  assert (Hk : ∀ l, evolving (mapM fk l)).
  { intros l. apply evolving_mapM, Forall_forall. intros x _.
    apply evolving_bind; [by apply evolving_compute_nested|].
    intros; apply evolving_ret. }
  assert (Hnode : ∀ s1, evolves s s1 →
            ∃ nd1, heap s1 !! self = Some nd1 ∧ within n s1
                   ∧ node_ok (length (heap s1)) nd1 = true).
  { intros s1 Hs1. pose proof (within_evolves _ _ _ Hs1 Hw) as Hw1.
    destruct (lookup_lt_is_Some_2 (heap s1) self) as [nd1 Hnd1].
    { by rewrite (evolves_length _ _ Hs1). }
    exists nd1. split_and!; [done|done|].
    destruct Hw1 as [Hok _]. by eapply store_ok_lookup. }
  destruct (Hnode s (evolves_refl s)) as (nd0 & Hnd0 & _ & Hok0).
  unfold bind at 1. unfold get_node at 1. rewrite Hnd0.
  unfold bind at 1.
  assert (Hsa : (mapM fa (_args nd0) s).1 ≠ NoResult).
  { apply (mapM_safe _ n (length (heap s))); [|done|done].
    apply Forall_forall. intros x Hx. split.
    - by apply evolving_compute_nested.
    - intros s0 Hw0 HL0. apply (compute_nested_safe rec n (length (heap s))); auto.
      unfold node_ok in Hok0. apply andb_prop in Hok0 as [Hok0 _].
      rewrite forallb_forall in Hok0. by apply Hok0, list_elem_of_In. }
  destruct (mapM fa (_args nd0) s) as [[cargs|e|] s1] eqn:E1; [|done|done].
  clear Hsa. pose proof (Ha _ _ _ _ E1) as Hs1.
  destruct (Hnode s1 Hs1) as (nd1 & Hnd1 & Hw1 & Hok1).
  unfold bind at 1. unfold get_node at 1. rewrite Hnd1.
  unfold bind at 1.
  assert (Hsk : (mapM fk (_kwargs nd1) s1).1 ≠ NoResult).
  { apply (mapM_safe _ n (length (heap s1))); [|done|done].
    apply Forall_forall. intros x Hx. split.
    - apply evolving_bind; [by apply evolving_compute_nested|].
      intros; apply evolving_ret.
    - intros s0 Hw0 HL0. unfold fk, bind.
      assert (Hc : (compute_nested rec x.2 rd dc 0 md s0).1 ≠ NoResult).
      { apply (compute_nested_safe rec n (length (heap s1))); auto.
        unfold node_ok in Hok1. apply andb_prop in Hok1 as [_ Hok1].
        rewrite forallb_forall in Hok1. apply Hok1, list_elem_of_In.
        by apply list_elem_of_fmap_2. }
      by destruct (compute_nested rec x.2 rd dc 0 md s0) as [[v|e|] s0']. }
  destruct (mapM fk (_kwargs nd1) s1) as [[ckw|e|] s2] eqn:E2; [|done|done].
  clear Hsk. pose proof (evolves_trans _ _ _ Hs1 (Hk _ _ _ _ E2)) as Hs2.
  destruct (Hnode s2 Hs2) as (nd2 & Hnd2 & _ & _).
  unfold bind at 1. unfold get_node at 1. rewrite Hnd2.
  unfold bind at 1. unfold modify at 1.
  destruct (body (_func nd2) cargs ckw) as [res|e]; [|done].
  unfold bind, modify, ret.
  by destruct (negb (disable_cache nd2) && negb dc).
Qed.

Lemma compute_body_safe rec n :
  rec_evolving rec →
  (∀ n', n = S n' → rec_safe n' rec) →
  rec_safe n (compute_body rec).
Proof.
  intros Hev Hrec self fr rd dc md s Hw Hself.
  destruct (compute_body rec self fr rd dc md s) as [r s'] eqn:Hrun. simpl.
  destruct (lookup_lt_is_Some_2 (heap s) self Hself) as [nd Hnd].
  apply compute_body_path in Hrun.
  destruct Hrun as [Hnone| |? _ _ HG| | ? G _ _ _ _ Hlost | ? G nd1 v
                   | ? G nd1 r s3 Hnd' Hc _ _ Hnd1 _ Htry];
    try done.
  - congruence.
  - destruct (get_dependency_graph_total (heap s) self). congruence.
  - destruct (lookup_evolves _ _ _ _ (correct_computed_status_evolves G s) Hnd)
      as (? & ? & _). congruence.
  - rewrite Hnd in Hnd'. injection Hnd' as <-.
    pose proof (correct_computed_status_evolves G s) as Hs1.
    set (s1 := (correct_computed_status G s).2) in *.
    destruct (within_evolves _ _ _ Hs1 Hw) as [Hok1 Hidle1].
    assert (Hc1 : _computing nd1 = false).
    { destruct (lookup_evolves _ _ _ _ Hs1 Hnd) as (nd1' & Hnd1' & Heq).
      rewrite Hnd1 in Hnd1'. injection Hnd1' as <-.
      apply same_but_cache in Heq as (_ & _ & _ & _ & _ & -> & _). done. }
    pose proof (idle_set_computing _ _ _ Hnd1 Hc1) as Hidle2.
    destruct n as [|n']; [lia|].
    assert (Hw2 : within n' (set_computing_flag self true s1)).
    { split; unfold set_computing_flag, with_heap; cbn [heap];
        [by apply store_ok_set_computing | lia]. }
    assert (Hself2 : self < length (heap (set_computing_flag self true s1))).
    { unfold set_computing_flag, with_heap; cbn [heap].
      rewrite length_alter, (evolves_length _ _ Hs1). done. }
    pose proof (try_block_safe rec n' self rd dc md _ Hev (Hrec n' eq_refl)
                  Hw2 Hself2) as Hsafe.
    rewrite Htry in Hsafe. simpl in Hsafe.
    destruct r as [v|e|]; simpl; [done| |done].
    destruct (try_block_frame _ _ _ _ _ _ _ _ Hev Htry)
      as (sa & Hsa & _ & _ & _ & _ & Hself3).
    destruct (lookup_lt_is_Some_2 (heap sa) self) as [nda Hnda].
    { by rewrite (evolves_length _ _ Hsa). }
    destruct Hself3 as [H3|(? & ? & _ & H3 & _)]; rewrite H3; [|done].
    by rewrite Hnda.
Qed.

Lemma compute_safe fuel : rec_safe fuel (compute fuel).
Proof.
  induction fuel as [|fuel IH]; rewrite compute_unfold;
    apply compute_body_safe; try apply compute_below_evolving.
  - intros n' [=].
  - intros n' [= <-]. exact IH.
Qed.

Lemma idle_le_length (h : list Latent) : idle h ≤ length h.
Proof. apply length_filter. Qed.

(** On a closed store, a call of [compute] on any of its objects with fuel
    for as many activations as there are objects gives a value or an
    exception. *)
Theorem compute_terminates self fr rd dc md s :
  store_ok (heap s) = true →
  self < length (heap s) →
  (compute (length (heap s)) self fr rd dc md s).1 ≠ NoResult.
Proof.
  intros Hok Hself. apply compute_safe; [|done].
  split; [done | apply idle_le_length].
Qed.

(** Past the guard and the cycle check, [compute] is a two-way branch. *)
Lemma compute_body_guarded rec self fr rd dc md s nd G :
  heap s !! self = Some nd →
  _computing nd = false →
  get_dependency_graph (heap s) self = Some G →
  validate_no_cycles G = None →
  compute_body rec self fr rd dc md s
  = if decide (cache_eligible fr rd G s nd)
    then (match latent_data nd with Some v => Returned v | None => NoResult end, s)
    else let '(r, s3) := try_block rec self rd dc md
                           (set_computing_flag self true
                              (correct_computed_status G s).2) in
         (reraise self r s3, set_computing_flag self false s3).
Proof.
  intros Hnd Hcomp HG Hval. unfold compute_body.
  rewrite Hnd, Hcomp, HG, Hval.
  destruct (correct_computed_status G s) as [G1 s1] eqn:Hcs.
  assert (HG1 : G1 = (correct_computed_status G s).1) by by rewrite Hcs.
  assert (Hs1 : s1 = (correct_computed_status G s).2) by by rewrite Hcs.
  assert (Hclean : get_updated_nodes G1 = [] → s1 = s).
  { rewrite HG1, Hs1. intros Hup.
    by apply correct_computed_status_clean, (updated_nodes_nil_clean _ s). }
  destruct (lookup_evolves s s1 self nd) as (nd1 & Hnd1 & _);
    [rewrite Hs1; apply correct_computed_status_evolves | done |].
  rewrite Hnd1. simpl.
  destruct (decide (cache_eligible fr rd G s nd)) as [(-> & -> & Hup & Hv)|Hne].
  - rewrite <- HG1 in Hup. pose proof (Hclean Hup) as ->.
    rewrite Hnd in Hnd1. injection Hnd1 as <-. simpl.
    rewrite Hup. simpl. rewrite bool_decide_eq_true_2 by done. done.
  - destruct (negb fr && negb rd && bool_decide (get_updated_nodes G1 = [])
              && bool_decide (is_Some (latent_data nd1))) eqn:Hb; [|done].
    exfalso. apply Hne.
    apply andb_prop in Hb as [Hb Hv]. apply andb_prop in Hb as [Hb Hup].
    apply andb_prop in Hb as [Hfr Hrd].
    apply bool_decide_eq_true in Hup, Hv.
    pose proof (Hclean Hup) as ->. rewrite Hnd in Hnd1. injection Hnd1 as <-.
    unfold cache_eligible. rewrite <- HG1.
    destruct fr, rd; simpl in *; try done.
Qed.

Lemma compute_self_cache fuel self fr rd dc md s r s' nd :
  heap s !! self = Some nd →
  compute fuel self fr rd dc md s = (r, s') →
  ∃ nd', heap s' !! self = Some nd'
    ∧ ((latent_data nd' = None ∨ latent_data nd' = latent_data nd)
       ∨ (∃ v, r = Returned v ∧ latent_data nd' = Some v
            ∧ dc = false ∧ disable_cache nd = false)).
Proof.
  rewrite compute_unfold. apply compute_body_self_cache, compute_below_evolving.
Qed.

(** ** The graph seen after an evaluation *)

Lemma shape_keys G G' : shape G' = shape G → (nodes G').*1 = (nodes G).*1.
Proof.
  intros [= Hn _].
  apply (f_equal (fmap fst)) in Hn. by rewrite <- !list_fmap_compose in Hn.
Qed.

Lemma stale_nodes_shape G :
  stale_nodes G = (filter (λ q : addr * bool, q.2 = true) (shape G).1).*1.
Proof.
  unfold stale_nodes, shape. simpl.
  induction (nodes G) as [|p ns IH]; [done|].
  rewrite fmap_cons, !filter_cons. cbn [snd].
  destruct (decide (needs_recomputation p.2 = true));
    rewrite ?fmap_cons; cbn [fst]; by rewrite IH.
Qed.

Lemma shape_stale_nodes G G' : shape G' = shape G → stale_nodes G' = stale_nodes G.
Proof. intros Hs. by rewrite !stale_nodes_shape, Hs. Qed.

Lemma peel_edges fuel G G' rem : edges G' = edges G → peel fuel G' rem = peel fuel G rem.
Proof.
  intros He. revert rem. induction fuel as [|fuel IH]; intros rem; simpl; [done|].
  rewrite IH. f_equal. apply list_filter_iff. intros n.
  unfold has_pred_in. by rewrite He.
Qed.

Lemma shape_validate G G' :
  shape G' = shape G → validate_no_cycles G' = validate_no_cycles G.
Proof.
  intros Hs. unfold validate_no_cycles, is_acyclic.
  rewrite (shape_keys _ _ Hs). injection Hs as Hn He.
  rewrite (peel_edges _ _ _ _ He).
  apply (f_equal length) in Hn. rewrite !length_fmap in Hn. by rewrite Hn.
Qed.

Lemma shape_add_node G G' n a a' :
  shape G' = shape G → needs_recomputation a' = needs_recomputation a →
  shape (add_node n a' G') = shape (add_node n a G).
Proof.
  intros Hs Ha. pose proof (shape_keys _ _ Hs) as Hk.
  injection Hs as Hn He. unfold shape, add_node, has_node; simpl.
  rewrite Hk, He. f_equal. case_bool_decide as Hin.
  - rewrite <- !list_fmap_compose.
    pose (upd := λ (c : bool) (q : addr * bool),
                   if bool_decide (q.1 = n) then (n, c) else q).
    assert (Hmap : ∀ (b : node_attr) (ns : list (addr * node_attr)),
      ((λ p : addr * node_attr, (p.1, needs_recomputation p.2))
         ∘ (λ p : addr * node_attr, if bool_decide (p.1 = n) then (n, b) else p))
        <$> ns
      = upd (needs_recomputation b)
          <$> ((λ p : addr * node_attr, (p.1, needs_recomputation p.2)) <$> ns)).
    { intros b ns. rewrite <- list_fmap_compose. apply list_fmap_ext.
      intros i p _. unfold upd. simpl. by case_bool_decide. }
    by rewrite !Hmap, Hn, Ha.
  - rewrite !fmap_app, Hn. simpl. by rewrite Ha.
Qed.

Lemma shape_add_edge G G' u v :
  shape G' = shape G → shape (add_edge u v G') = shape (add_edge u v G).
Proof. intros [= Hn He]. unfold shape, add_edge; simpl. by rewrite Hn, He. Qed.

Lemma build_graph_shape fuel (h h' : list Latent) :
  Forall2 (λ nd nd', set_latent_data None nd' = set_latent_data None nd) h h' →
  ∀ self G G' v,
    shape G' = shape G →
    match _build_graph fuel h self (G, v), _build_graph fuel h' self (G', v) with
    | Some gv, Some gv' => shape gv'.1 = shape gv.1 ∧ gv'.2 = gv.2
    | None, None => True
    | _, _ => False
    end.
Proof.
  intros HF. induction fuel as [|fuel IH]; intros self G G' v Hs; simpl; [done|].
  case_bool_decide; [done|].
  destruct (h !! self) as [nd|] eqn:Hnd.
  2:{ destruct (h' !! self) as [nd'|] eqn:Hnd'; [|done].
      destruct (Forall2_lookup_r _ _ _ _ _ HF Hnd') as (? & ? & _). congruence. }
  destruct (Forall2_lookup_l _ _ _ _ _ HF Hnd) as (nd' & Hnd' & Heq).
  rewrite Hnd'.
  apply same_but_cache in Heq as (Hf & Ha & Hk & _ & Hn & _).
  assert (Hargs : latent_args nd' = latent_args nd).
  { unfold latent_args. by rewrite Ha, Hk. }
  rewrite Hargs. fold (build_step fuel h self). fold (build_step fuel h' self).
  assert (Hfold : ∀ args (acc acc' : option (DiGraph * list addr)),
    match acc, acc' with
    | Some gv, Some gv' => shape gv'.1 = shape gv.1 ∧ gv'.2 = gv.2
    | None, None => True
    | _, _ => False
    end →
    match foldl (build_step fuel h self) acc args,
          foldl (build_step fuel h' self) acc' args with
    | Some gv, Some gv' => shape gv'.1 = shape gv.1 ∧ gv'.2 = gv.2
    | None, None => True
    | _, _ => False
    end).
  { induction args as [|a args IHargs]; intros acc acc' Hacc; simpl; [done|].
    apply IHargs.
    destruct acc as [[G1 v1]|], acc' as [[G1' v1']|]; simpl in *; try done.
    destruct Hacc as [Hs1 ->].
    specialize (IH a G1 G1' v1 Hs1).
    destruct (_build_graph fuel h a (G1, v1)) as [[G2 v2]|],
             (_build_graph fuel h' a (G1', v1)) as [[G2' v2']|]; simpl in *;
      try done.
    destruct IH as [Hs2 ->]. split; [|done]. by apply shape_add_edge. }
  apply Hfold. simpl. split; [|done].
  apply shape_add_node; [done|]. simpl. done.
Qed.

Lemma get_dependency_graph_evolves s s' self G :
  evolves s s' →
  get_dependency_graph (heap s) self = Some G →
  ∃ G', get_dependency_graph (heap s') self = Some G' ∧ shape G' = shape G.
Proof.
  intros Hev. unfold get_dependency_graph.
  rewrite (evolves_length _ _ Hev).
  pose proof (build_graph_shape (S (length (heap s))) _ _ (evolves_Forall2 _ _ Hev)
                self empty_graph empty_graph [] eq_refl) as H.
  destruct (_build_graph (S (length (heap s))) (heap s) self (empty_graph, []))
    as [[G1 v1]|]; [|done].
  destruct (_build_graph (S (length (heap s))) (heap s') self (empty_graph, []))
    as [[G1' v1']|]; [|done].
  simpl in *. intros [= <-]. destruct H. eauto.
Qed.

(** ** Caching on a graph that was never invalidated *)

(** The slow path, when it returns with caching enabled and not suppressed,
    leaves the returned value in the cache. *)
Lemma compute_returned_is_cached fuel self fr rd md s nd v s' :
  heap s !! self = Some nd →
  disable_cache nd = false →
  compute fuel self fr rd false md s = (Returned v, s') →
  ∃ nd', heap s' !! self = Some nd' ∧ latent_data nd' = Some v.
Proof.
  intros Hnd Hd Hrun. rewrite compute_unfold in Hrun.
  pose proof (compute_below_evolving fuel) as Hrec.
  apply compute_body_path in Hrun.
  remember (Returned v) as r eqn:Hr.
  destruct Hrun as [ | | | | | ? G nd1 v0 _ _ _ _ Hnd1 _ _ _ Hv
                   | ? G nd1 r s3 _ _ _ _ Hnd1 _ Htry]; try done.
  - injection Hr as ->. eauto.
  - apply reraise_returned in Hr as ->.
    destruct (try_block_inv _ _ _ _ _ _ _ _ Hrec Htry)
      as (sa & Hsa & [[Hno _]|(nda & v' & Hnda & [= <-] & ->)]);
      [by destruct (Hno v)|].
    assert (Hda : disable_cache nda = false).
    { destruct Hsa as (_ & _ & Pa). specialize (Pa self).
      rewrite lookup_set_computing_flag, decide_True in Pa by done.
      rewrite Hnd1, Hnda in Pa. simpl in Pa. destruct Pa as [Ea _].
      apply same_but_cache in Ea as (_ & _ & _ & -> & _). simpl.
      destruct (correct_computed_status_cleared G s self) as [H| H];
        rewrite Hnd, Hnd1 in H; simplify_eq/=; done. }
    rewrite Hda. cbn [negb andb].
    rewrite lookup_set_computing_flag, decide_True by done.
    rewrite lookup_LatentData_set, decide_True by done.
    cbn [heap log_call]. rewrite Hnda. simpl. eauto.
Qed.

(** If nothing in the dependency closure of a caching node is marked, a
    call that returned [v] is followed by a cache hit: the next call, with
    no mutation in between and without the forcing flags, returns [v] and
    runs no callable at all. *)
Lemma second_call_is_cache_hit fuel fuel' self md dc' md' s nd G v s' :
  heap s !! self = Some nd →
  _computing nd = false →
  disable_cache nd = false →
  get_dependency_graph (heap s) self = Some G →
  validate_no_cycles G = None →
  stale_nodes G = [] →
  compute fuel self false false false md s = (Returned v, s') →
  compute fuel' self false false dc' md' s' = (Returned v, s').
Proof.
  intros Hnd Hc Hd HG Hval Hst Hrun.
  pose proof (compute_evolving _ _ _ _ _ _ _ _ _ Hrun) as Hev.
  destruct (compute_returned_is_cached _ _ _ _ _ _ _ _ _ Hnd Hd Hrun)
    as (nd' & Hnd' & Hv).
  destruct (lookup_evolves _ _ _ _ Hev Hnd) as (nd'' & Hnd'' & Heq).
  rewrite Hnd' in Hnd''. injection Hnd'' as <-.
  apply same_but_cache in Heq as (_ & _ & _ & _ & _ & Hc' & _).
  destruct (get_dependency_graph_evolves _ _ _ _ Hev HG) as (G' & HG' & Hs).
  rewrite compute_unfold.
  rewrite (compute_body_guarded _ _ _ _ _ _ _ nd' G'); try done.
  - rewrite decide_True; [by rewrite Hv|].
    unfold cache_eligible. split_and!; try done; try (by rewrite Hv).
    assert (Hst' : stale_nodes G' = []) by by rewrite (shape_stale_nodes _ _ Hs).
    destruct (get_updated_nodes (correct_computed_status G' s').1) as [|a l] eqn:E;
      [done|].
    exfalso.
    assert (Hcs : (correct_computed_status G' s').1 = G').
    { unfold correct_computed_status. simpl.
      rewrite (stale_dependents_nil _ Hst'). destruct G' as [ns es]. simpl.
      f_equal. clear. induction ns as [|p ns IH]; [done|].
      rewrite fmap_cons. cbn beta.
      rewrite ?bool_decide_eq_false_2 by apply not_elem_of_nil.
      by rewrite IH. }
    rewrite Hcs in E. unfold get_updated_nodes in E. by rewrite Hst' in E.
  - congruence.
  - by rewrite (shape_validate _ _ Hs).
Qed.

(** A node built with [disable_cache=True] and an empty cache: no call
    fills the cache, and a call that gets past the guard and the cycle
    check and returns a value has run the callable. *)
Lemma disabled_cache_always_runs fuel self fr rd dc md s nd r s' :
  heap s !! self = Some nd →
  disable_cache nd = true →
  latent_data nd = None →
  compute fuel self fr rd dc md s = (r, s') →
  (∃ nd', heap s' !! self = Some nd' ∧ latent_data nd' = None)
  ∧ (∀ v, r = Returned v → ∃ mid, calls s' = self :: mid ++ calls s).
Proof.
  intros Hnd Hd Hl Hrun. split.
  - destruct (compute_self_cache _ _ _ _ _ _ _ _ _ _ Hnd Hrun)
      as (nd' & Hnd' & [[H|H]|(v & _ & _ & _ & H)]); [eauto| |congruence].
    rewrite Hl in H. eauto.
  - rewrite compute_unfold in Hrun.
    pose proof (compute_below_evolving fuel) as Hrec.
    apply compute_body_path in Hrun.
    destruct Hrun as [ | | | | | ? G nd1 v0 _ _ _ _ Hnd1 _ _ _ Hv
                     | ? G nd1 r s3 _ _ _ _ _ _ Htry];
      [by intros | by intros | by intros | by intros | by intros | | ].
    + destruct (correct_computed_status_cleared G s self) as [H|H];
        rewrite Hnd, Hnd1 in H; simplify_eq/=; congruence.
    + intros v Hr.
      destruct (slow_path_executed _ _ _ _ _ _ _ _ _ Hrec Htry Hr) as [mid Hmid].
      destruct (correct_computed_status_evolves G s) as (_ & [pre Hpre] & _).
      exists (mid ++ pre). rewrite Hmid, Hpre. by rewrite app_assoc.
Qed.

(** ** Eager invalidation with a fresh visited set *)

Lemma update_fold_None fuel ds : foldl (update_step fuel) None ds = None.
Proof. induction ds; simpl; auto. Qed.

Lemma update_post_refl h v : update_post h v h v.
Proof. unfold update_post. split_and!; auto; intros; done. Qed.

Lemma dependent_of_transfer h h' n d :
  (∀ x, _dependents <$> h' !! x = _dependents <$> h !! x) →
  dependent_of h n d ↔ dependent_of h' n d.
Proof. intros H. unfold dependent_of. by rewrite H. Qed.

Lemma update_post_trans h1 v1 h2 v2 h3 v3 :
  update_post h1 v1 h2 v2 → update_post h2 v2 h3 v3 → update_post h1 v1 h3 v3.
Proof.
  intros (A1 & L1 & D1 & U1 & M1 & C1) (A2 & L2 & D2 & U2 & M2 & C2).
  unfold update_post. split_and!.
  - auto.
  - congruence.
  - intros x. by rewrite D2.
  - intros x Hx. rewrite U2, U1; [done| |]; destruct Hx; auto.
  - intros x Hx Hnx Hlt. destruct (decide (x ∈ v2)) as [H2|H2].
    + destruct (M1 x H2 Hnx Hlt) as (nd & Hnd & Hm).
      exists nd. split; [|done]. rewrite U2; auto.
    + apply M2; auto. lia.
  - intros x Hx Hnx d Hd. destruct (decide (x ∈ v2)) as [H2|H2].
    + apply A2. by apply (C1 x H2 Hnx).
    + apply (C2 x Hx H2). by apply (dependent_of_transfer h1 h2).
Qed.

(** Visiting one dependent: mark it, add it to the set. *)
Lemma update_post_visit h v d :
  d ∉ v →
  (∀ x, x ∈ v → x ∈ d :: v)
  ∧ length (alter mark_stale d h) = length h
  ∧ (∀ x, _dependents <$> alter mark_stale d h !! x = _dependents <$> h !! x)
  ∧ (∀ x, x ∈ v ∨ x ∉ d :: v → alter mark_stale d h !! x = h !! x)
  ∧ (d < length h → marked (alter mark_stale d h) d).
Proof.
  intros Hd. split_and!.
  - intros x Hx. by right.
  - apply length_alter.
  - intros x. rewrite list_lookup_alter. case_decide; [subst|done].
    by destruct (h !! x).
  - intros x Hx. apply list_lookup_alter_ne. intros ->.
    destruct Hx as [Hx|Hx]; [done|]. apply Hx. left.
  - intros Hlt. destruct (lookup_lt_is_Some_2 h d Hlt) as [nd Hnd].
    exists (mark_stale nd). by rewrite list_lookup_alter_eq, Hnd.
Qed.

Lemma update_dependents_spec fuel :
  ∀ self h v h' v',
    _update_dependents fuel self (h, v) = Some (h', v') →
    update_post h v h' v' ∧ (∀ d, dependent_of h self d → d ∈ v').
Proof.
  induction fuel as [|fuel IH]; intros self h v h' v'; simpl; [done|].
  destruct (h !! self) as [nd|] eqn:Hnd.
  2:{ intros [= <- <-]. split; [apply update_post_refl|].
      intros d (ds & Hds & _). by rewrite Hnd in Hds. }
  fold (update_step fuel).
  assert (Hfold : ∀ ds h1 v1,
    foldl (update_step fuel) (Some (h1, v1)) ds = Some (h', v') →
    update_post h1 v1 h' v' ∧ (∀ d, d ∈ ds → d ∈ v')).
  { induction ds as [|d ds IHds]; intros h1 v1; simpl.
    - intros [= <- <-]. split; [apply update_post_refl|].
      intros d Hd. by apply elem_of_nil in Hd.
    - case_bool_decide as Hvis.
      + intros Hrest. destruct (IHds _ _ Hrest) as [P Hds]. split; [done|].
        intros x [->|Hx]%elem_of_cons; [|by apply Hds].
        destruct P as (A & _). by apply A.
      + destruct (_update_dependents fuel d (alter mark_stale d h1, d :: v1))
          as [[h2 v2]|] eqn:Ed; [|by rewrite update_fold_None].
        intros Hrest.
        destruct (IH _ _ _ _ _ Ed) as [(A & L & D & U & M & C) Hdd].
        destruct (IHds _ _ Hrest) as [P23 Hds].
        destruct (update_post_visit h1 v1 d Hvis) as (A0 & L0 & D0 & U0 & M0).
        assert (P12 : update_post h1 v1 h2 v2).
        { unfold update_post. split_and!.
          - auto.
          - congruence.
          - intros x. by rewrite D.
          - intros x Hx. rewrite U, U0; [done| |].
            + destruct Hx as [Hx|Hx]; [by left|]. right. intros Hin.
              apply Hx, A. done.
            + destruct Hx as [Hx|Hx]; [left; by right|]. by right.
          - intros x Hx Hnx Hlt. destruct (decide (x = d)) as [->|Hne].
            + destruct (M0 Hlt) as (nd' & Hnd' & Hm). exists nd'.
              split; [|done]. rewrite U; [done|]. left. left.
            + apply M; [done| |by rewrite L0]. rewrite elem_of_cons. tauto.
          - intros x Hx Hnx y Hy. destruct (decide (x = d)) as [->|Hne].
            + apply Hdd. by apply (dependent_of_transfer h1).
            + apply (C x Hx); [rewrite elem_of_cons; tauto|].
              by apply (dependent_of_transfer h1). }
        split; [by eapply update_post_trans|].
        intros x [->|Hx]%elem_of_cons; [|by apply Hds].
        destruct P23 as (A23 & _). apply A23, A. left. }
  intros Hrun. destruct (Hfold _ _ _ Hrun) as [P Hds]. split; [done|].
  intros d (ds & Hds' & Hd). rewrite Hnd in Hds'. simpl in Hds'.
  injection Hds' as <-. by apply Hds.
Qed.

Lemma dependents_ok_transfer h h' :
  length h' = length h →
  (∀ x, _dependents <$> h' !! x = _dependents <$> h !! x) →
  dependents_ok h → dependents_ok h'.
Proof.
  intros HL HD Hok n d Hd. rewrite HL. apply (Hok n).
  by apply (dependent_of_transfer h h').
Qed.

Lemma unvisited_length h h' v : length h' = length h → unvisited h' v = unvisited h v.
Proof. unfold unvisited. by intros ->. Qed.

Lemma update_dependents_total fuel :
  ∀ self h v,
    dependents_ok h → unvisited h v < fuel →
    is_Some (_update_dependents fuel self (h, v)).
Proof.
  induction fuel as [|fuel IH]; intros self h v Hok Hlt; simpl; [lia|].
  destruct (h !! self) as [nd|] eqn:Hnd; [|done].
  fold (update_step fuel).
  assert (Hfold : ∀ ds h1 v1,
    dependents_ok h1 → unvisited h1 v1 ≤ fuel →
    (∀ d, d ∈ ds → d < length h1) →
    is_Some (foldl (update_step fuel) (Some (h1, v1)) ds)).
  { induction ds as [|d ds IHds]; intros h1 v1 Hok1 Hv1 Hds; simpl; [done|].
    case_bool_decide as Hvis.
    - apply IHds; auto. intros x Hx. apply Hds. by right.
    - assert (Hd : d < length h1) by (apply Hds; left).
      destruct (update_post_visit h1 v1 d Hvis) as (A0 & L0 & D0 & U0 & M0).
      assert (Hlt1 : unvisited (alter mark_stale d h1) (d :: v1) < fuel).
      { rewrite (unvisited_length _ _ _ L0).
        pose proof (unvisited_cons h1 v1 d (lookup_lt_is_Some_2 _ _ Hd) Hvis).
        lia. }
      destruct (IH d _ _ (dependents_ok_transfer _ _ L0 D0 Hok1) Hlt1)
        as [[h2 v2] Ed].
      rewrite Ed.
      destruct (update_dependents_spec _ _ _ _ _ _ Ed) as [(A & L & D & _) _].
      apply IHds.
      + apply (dependents_ok_transfer (alter mark_stale d h1)); auto.
        by apply (dependents_ok_transfer h1).
      + rewrite (unvisited_length (alter mark_stale d h1) h2 v2 L).
        pose proof (unvisited_mono (alter mark_stale d h1) (d :: v1) v2 A). lia.
      + intros x Hx. rewrite L, L0. apply Hds. by right. }
  apply Hfold; [done|lia|].
  intros d Hd. apply (Hok self). exists (_dependents nd).
  by rewrite Hnd.
Qed.

(** With an empty shared set, a mutator does what its docstring says: it
    returns, the node itself is marked with its cache cleared, and so is
    every node downstream of it.  The set is left non-empty for the calls
    to come. *)
Lemma update_with_fresh_set change self s nd :
  dependents_ok (heap s) →
  default_visited s = [] →
  heap s !! self = Some nd →
  (∀ x, _dependents (change x) = _dependents x) →
  ∃ s', update_with change self s = Some s'
    ∧ marked (heap s') self
    ∧ ∀ d, downstream (heap s) self d → marked (heap s') d ∧ d ∈ default_visited s'.
Proof.
  intros Hok Hv Hnd Hch. unfold update_with, _update_dependents_default.
  cbn [heap with_heap default_visited calls].
  set (h0 := alter (λ nd, set_needs_recomputation true (change nd)) self (heap s)).
  assert (L0 : length h0 = length (heap s)) by apply length_alter.
  assert (D0 : ∀ x, _dependents <$> h0 !! x = _dependents <$> heap s !! x).
  { intros x. unfold h0. rewrite list_lookup_alter. case_decide; [subst|done].
    rewrite Hnd. simpl. by rewrite Hch. }
  assert (Hok0 : dependents_ok h0) by by apply (dependents_ok_transfer (heap s)).
  rewrite Hv.
  destruct (update_dependents_total (S (length h0)) self h0 [] Hok0)
    as [[h1 v1] E].
  { unfold unvisited. pose proof (length_filter (λ a, a ∉ []) (seq 0 (length h0))).
    rewrite length_seq in *. lia. }
  rewrite E. eexists. split; [done|]. cbn [heap with_heap default_visited calls].
  destruct (update_dependents_spec _ _ _ _ _ _ E) as [(A & L & D & U & M & C) Hself].
  assert (Hdown : ∀ d, downstream (heap s) self d → d ∈ v1).
  { intros d Hd. induction Hd as [d Hd|m d _ IHm Hd].
    - apply Hself. by apply (dependent_of_transfer (heap s)).
    - apply (C m IHm); [apply not_elem_of_nil|].
      by apply (dependent_of_transfer (heap s)). }
  assert (Hin : ∀ d, downstream (heap s) self d → d < length h0).
  { intros d Hd. rewrite L0. destruct Hd as [d Hd|m d _ Hd]; by eapply Hok. }
  split.
  - destruct (lookup_lt_is_Some_2 h1 self) as [nd1 Hnd1].
    { rewrite L, L0. by eapply lookup_lt_Some. }
    exists (set_latent_data None nd1).
    rewrite list_lookup_alter_eq, Hnd1. split; [done|]. split; [|done]. simpl.
    destruct (decide (self ∈ v1)) as [Hin1|Hin1].
    + destruct (M self Hin1) as (nd' & Hnd' & Hm & _);
        [apply not_elem_of_nil | rewrite L0; by eapply lookup_lt_Some |].
      congruence.
    + rewrite U in Hnd1 by auto. unfold h0 in Hnd1.
      rewrite list_lookup_alter_eq, Hnd in Hnd1. by simplify_eq/=.
  - intros d Hd. split; [|by apply Hdown].
    destruct (M d (Hdown d Hd)) as (nd' & Hnd' & Hm & Hc);
      [apply not_elem_of_nil | by apply Hin |].
    unfold marked. rewrite list_lookup_alter. case_decide; [subst|by exists nd'].
    exists (set_latent_data None nd'). rewrite Hnd'. done.
Qed.

(** ** The claims *)

(** *** C1 *)



(** *** C2 *)

(** C2 describes what the mutators should do; the code does not do it.
    [_update_dependents] is declared with the default [visited = set()],
    one set object shared by all calls, and the mutators call it without
    argument.  In [st_chain_0] the first [a.update_args(2)] has left [b]
    (object 1) in that set.  Then [c = inc(b)] is created and computed
    ([st_chain_1]).  The second [a.update_args(3)] finds [b] already
    visited and stops there ([st_chain_2]): the cache of [b] is not
    cleared, and [c] (object 2), a dependent of [b], is neither marked nor
    cleared. *)
Theorem C2_shared_visited_set_skips_dependents :
  default_visited st_chain_0 = [1]
  ∧ _dependents <$> heap st_chain_1 = [[1]; [2]; []]
  ∧ flags st_chain_1
    = [(Some (VInt 3), true, false); (Some (VInt 4), true, false);
       (Some (VInt 5), false, false)]
  ∧ is_Some (update_args 0 [VInt 3] st_chain_1)
  ∧ flags st_chain_2
    = [(None, true, false); (Some (VInt 4), true, false);
       (Some (VInt 5), false, false)]
  ∧ default_visited st_chain_2 = [1].
Proof. vm_compute. split_and!; eauto. Qed.

(** *** C3 *)

(** C3.  For a call that gets past the re-entrancy guard and the cycle
    check: the cached value is returned at once, leaving the whole state
    (store and invocation log) untouched, if and only if [force_recompute]
    and [recompute_dependencies] are false, the stale set of the graph
    rooted at the node is empty and the node's cache is non-empty.  When one
    of the four fails, a value is only returned after the node's own
    callable has been entered in this call. *)
Theorem C3_cache_hit_iff fuel self fr rd dc md s nd G r s' :
  heap s !! self = Some nd →
  _computing nd = false →
  get_dependency_graph (heap s) self = Some G →
  validate_no_cycles G = None →
  compute fuel self fr rd dc md s = (r, s') →
  ((∃ v, latent_data nd = Some v ∧ r = Returned v ∧ s' = s)
   ↔ cache_eligible fr rd G s nd)
  ∧ (¬ cache_eligible fr rd G s nd →
     ∀ v, r = Returned v → ∃ mid, calls s' = self :: mid ++ calls s).
Proof.
  intros Hnd Hcomp HG Hval Hrun. rewrite compute_unfold in Hrun.
  pose proof (compute_below_evolving fuel) as Hrec.
  apply compute_body_path in Hrun.
  destruct Hrun as [ | | | | ? G' Hnd' _ HG' _ Hlost
                   | ? G' nd1 v Hnd' _ HG' _ Hnd1 -> -> Hup Hv
                   | ? G' nd1 r s3 Hnd' _ HG' _ Hnd1 Hslow Htry];
    try congruence; rewrite HG in HG'; injection HG' as <-.
  - destruct (lookup_evolves _ _ _ _ (correct_computed_status_evolves G s) Hnd)
      as (? & ? & _). congruence.
  - pose proof (correct_computed_status_clean G s (updated_nodes_nil_clean _ _ Hup))
      as Hclean.
    rewrite Hclean in *. rewrite Hnd in Hnd1. injection Hnd1 as <-.
    assert (cache_eligible false false G s nd).
    { unfold cache_eligible. rewrite Hv. by split_and!. }
    split; [|done]. split; [done|]. intros _. eauto.
  - assert (Hne : ¬ cache_eligible fr rd G s nd).
    { intros (-> & -> & Hup & Hv).
      pose proof (correct_computed_status_clean G s (updated_nodes_nil_clean _ _ Hup))
        as Hclean.
      rewrite Hclean in Hnd1. rewrite Hnd in Hnd1. injection Hnd1 as <-.
      destruct Hslow as [|[|[|Hnone]]]; try done.
      rewrite Hnone in Hv. by destruct Hv. }
    assert (Hex : ∀ v, reraise self r s3 = Returned v →
                ∃ mid, calls (set_computing_flag self false s3)
                       = self :: mid ++ calls s).
    { intros v Hr.
      destruct (slow_path_executed _ _ _ _ _ _ _ _ _ Hrec Htry Hr) as [mid Hmid].
      destruct (correct_computed_status_evolves G s) as (_ & [pre Hpre] & _).
      exists (mid ++ pre). rewrite Hmid, Hpre. by rewrite app_assoc. }
    split; [|by intros _].
    split; [|done]. intros (v & _ & Hr & Hs). exfalso.
    destruct (Hex v Hr) as [mid Hmid]. rewrite Hs in Hmid.
    apply (f_equal length) in Hmid. simpl in Hmid.
    rewrite length_app in Hmid. lia.
Qed.

Lemma C3_cache_hit_iff_witness :
  ∃ nd G,
    heap st_expr_computed !! 2 = Some nd ∧ _computing nd = false
    ∧ get_dependency_graph (heap st_expr_computed) 2 = Some G
    ∧ validate_no_cycles G = None
    ∧ ((∃ v, latent_data nd = Some v ∧ Returned (VInt 1030) = Returned v
             ∧ st_expr_computed = st_expr_computed)
       ↔ cache_eligible false false G st_expr_computed nd).
Proof.
  eexists. eexists.
  split; [reflexivity|]. split; [reflexivity|]. split; [reflexivity|].
  split; [reflexivity|].
  eapply (C3_cache_hit_iff 3 2 false false false None st_expr_computed);
    [reflexivity | reflexivity | reflexivity | reflexivity
    | vm_compute; reflexivity].
Defined.

(** *** C4 *)

(** C4 describes a recomputation of the whole dependency closure; the code
    forces one level only.  [compute] hands [recompute_dependencies] to
    [compute_nested] as its [force_recompute], and [compute_nested] calls
    the dependency with that flag but without [recompute_dependencies].
    In [c.compute(recompute_dependencies=True)] the callables of [c] and
    [b] run again; [a], two levels down, answers from its cache. *)
Theorem C4_recompute_dependencies_stops_after_one_level :
  calls st_tower = [2; 1; 0]
  ∧ (compute 4 2 false true false None st_tower).1 = Returned (VInt 4)
  ∧ calls (compute 4 2 false true false None st_tower).2 = [2; 1] ++ calls st_tower.
Proof. vm_compute. done. Qed.

(** *** C5 *)

(** No call of [compute] changes a [_needs_recomputation] flag (nor any
    field other than caches): nothing in [compute] assigns it. *)
Lemma compute_keeps_needs_recomputation fuel self fr rd dc md s r s' x nd :
  compute fuel self fr rd dc md s = (r, s') →
  heap s !! x = Some nd →
  ∃ nd', heap s' !! x = Some nd'
    ∧ _needs_recomputation nd' = _needs_recomputation nd.
Proof.
  intros Hrun Hx.
  destruct (lookup_evolves _ _ _ _ (compute_evolving _ _ _ _ _ _ _ _ _ Hrun) Hx)
    as (nd' & Hnd' & Heq).
  exists nd'. split; [done|].
  by apply same_but_cache in Heq as (_ & _ & _ & _ & -> & _).
Qed.

(** C5 describes a flag that a successful recomputation clears; the code
    never clears it.  After [a.update_args(2)], [a.compute()] runs the
    callable, returns 3 and stores 3 in the cache, and
    [_needs_recomputation] is still set. *)
Theorem C5_needs_recomputation_survives_recompute :
  flags st_updated = [(None, true, false)]
  ∧ (compute 2 0 false false false None st_updated).1 = Returned (VInt 3)
  ∧ calls (compute 2 0 false false false None st_updated).2 = [0]
  ∧ flags (compute 2 0 false false false None st_updated).2
    = [(Some (VInt 3), true, false)].
Proof. vm_compute. done. Qed.

(** *** C6 *)




(** *** C7 *)

(** C7.  If the [_computing] flag of a node is already set when [compute]
    is entered on it, the call raises a [RecursionError] whose message ends
    with the name of the node's callable.  This happens for every choice of
    the flags and before anything else: the store and the log of
    invocations are exactly what they were, and neither the shape of the
    dependency graph nor the remaining fuel plays a role. *)
Theorem C7_reentrant_call_raises fuel self fr rd dc md s nd :
  heap s !! self = Some nd →
  _computing nd = true →
  compute fuel self fr rd dc md s
  = (Raised (Exn "RecursionError"
               ("Circular dependency detected in delayed computation of "
                +:+ __name__ (_func nd)) None), s).
Proof.
  intros Hnd Hc. rewrite compute_unfold. unfold compute_body.
  by rewrite Hnd, Hc.
Qed.

Lemma C7_reentrant_call_raises_witness :
  ∃ nd, heap st_expr_busy !! 2 = Some nd ∧ _computing nd = true
    ∧ __name__ (_func nd) = "add"
    ∧ compute 3 2 false false false None st_expr_busy
      = (Raised (Exn "RecursionError"
                   ("Circular dependency detected in delayed computation of "
                    +:+ __name__ (_func nd)) None),
         st_expr_busy).
Proof.
  eexists. split; [reflexivity|]. split; [reflexivity|]. split; [reflexivity|].
  apply C7_reentrant_call_raises; reflexivity.
Defined.

(** *** C8 *)




(** *** C9 *)

(** C9, as stated, fails.  The top-level call [n.compute()] on [st_loop]
    ends in the [RecursionError] raised by the nested call [n.compute()]
    and wrapped twice; that nested call is entered in [st_loop_inner],
    terminates by raising, and leaves [n._computing] set on exit. *)
Lemma C9_computing_flag_counterexample :
  exn_str <$> (match (compute 3 1 false false false None st_loop).1 with
               | Raised e => Some e | _ => None end)
  = Some ("Error in delayed computation of total: "
          +:+ "Error in delayed computation of total: "
          +:+ "Circular dependency detected in delayed computation of total")
  ∧ (compute 3 1 false false false None st_loop_inner).1
    = Raised (Exn "RecursionError"
                "Circular dependency detected in delayed computation of total" None)
  ∧ _computing <$> heap (compute 3 1 false false false None st_loop_inner).2 !! 1
    = Some true.
Proof. vm_compute. done. Qed.

(** C9, amended.  A call entered with the flag clear leaves it clear on
    exit, whatever the outcome (a value, the cached value, any error); a
    call entered with the flag set is the re-entrant one: it raises and
    changes nothing, so the flag stays set for the activation that is still
    running. *)
Theorem C9_computing_flag_on_exit fuel self fr rd dc md s nd r s' :
  heap s !! self = Some nd →
  compute fuel self fr rd dc md s = (r, s') →
  (_computing nd = false →
   ∃ nd', heap s' !! self = Some nd' ∧ _computing nd' = false)
  ∧ (_computing nd = true →
     r = Raised (RecursionError (__name__ (_func nd))) ∧ s' = s).
Proof.
  intros Hnd Hrun. split; intros Hc.
  - destruct (lookup_evolves _ _ _ _ (compute_evolving _ _ _ _ _ _ _ _ _ Hrun) Hnd)
      as (nd' & Hnd' & Heq).
    exists nd'. split; [done|].
    apply same_but_cache in Heq as (_ & _ & _ & _ & _ & -> & _). done.
  - rewrite compute_unfold in Hrun. unfold compute_body in Hrun.
    rewrite Hnd, Hc in Hrun. by injection Hrun as <- <-.
Qed.

Lemma C9_computing_flag_on_exit_witness :
  ∃ nd, heap st_failing !! 0 = Some nd ∧ _computing nd = false
    ∧ (compute 3 0 false false false None st_failing).1
      = Raised (Exn "ValueError"
                  "Error in delayed computation of failing_function: Test error"
                  (Some (Exn "ValueError" "Test error" None)))
    ∧ ∃ nd', heap (compute 3 0 false false false None st_failing).2 !! 0 = Some nd'
             ∧ _computing nd' = false.
Proof.
  eexists. split; [reflexivity|]. split; [reflexivity|]. split; [reflexivity|].
  eapply (C9_computing_flag_on_exit 3 0 false false false None st_failing).
  - reflexivity.
  - apply surjective_pairing.
  - reflexivity.
Defined.

(** *** C10 *)

(** C10 describes a cache hit on the second of two calls with no change in
    between; with the flag of C5 still set, the code recomputes.  After
    [a.update_args(2)], two calls [a.compute()] in a row, the node being
    left alone in between, both return 3 and both run the callable. *)
Theorem C10_second_call_recomputes_after_update :
  let first := compute 2 0 false false false None st_updated in
  let second := compute 2 0 false false false None first.2 in
  first.1 = Returned (VInt 3)
  ∧ flags first.2 = [(Some (VInt 3), true, false)]
  ∧ second.1 = Returned (VInt 3)
  ∧ calls second.2 = [0; 0].
Proof. vm_compute. done. Qed.

(** * Further properties *)

(** ** Conditions on a given store, checked by evaluation *)

Lemma dependents_ok_checked h : dependents_ok_check h = true → dependents_ok h.
Proof.
  unfold dependents_ok_check. rewrite forallb_forall.
  intros H n d (ds & Hds & Hd).
  destruct (h !! n) as [nd|] eqn:En; [|done]. injection Hds as <-.
  assert (In nd h) as Hin.
  { apply list_elem_of_In. by eapply list_elem_of_lookup_2. }
  specialize (H nd Hin). rewrite forallb_forall in H.
  apply Nat.ltb_lt. apply H. by apply list_elem_of_In.
Qed.

Lemma decreasing_checked rk succs h n a :
  decreasing_check rk succs h = true →
  a ∈ from_option succs [] (h !! n) →
  rk a < rk n.
Proof.
  unfold decreasing_check. rewrite forallb_forall. intros H Ha.
  destruct (h !! n) as [nd|] eqn:En; [|by apply elem_of_nil in Ha].
  assert (In n (seq 0 (length h))) as Hin.
  { apply in_seq. apply lookup_lt_Some in En. lia. }
  specialize (H n Hin). rewrite En, forallb_forall in H.
  apply Nat.ltb_lt. apply H. by apply list_elem_of_In.
Qed.

Lemma dependencies_decrease_checked rk h :
  decreasing_check rk latent_args h = true →
  ∀ n a, dependency h n a → rk a < rk n.
Proof.
  intros H n a (nd & Hnd & Ha). apply (decreasing_checked rk latent_args h); [done|].
  by rewrite Hnd.
Qed.

Lemma dependents_decrease_checked rk h :
  decreasing_check rk _dependents h = true →
  ∀ n d, dependent_of h n d → rk d < rk n.
Proof.
  intros H n d (ds & Hds & Hd). apply (decreasing_checked rk _dependents h); [done|].
  destruct (h !! n); [|done]. injection Hds as Hds. simpl. by rewrite Hds.
Qed.

(** ** Construction *)

Lemma add_dependent_idem self nd :
  add_dependent self (add_dependent self nd) = add_dependent self nd.
Proof.
  unfold add_dependent. simpl. f_equal.
  destruct (decide (self ∈ _dependents nd)) as [Hin|Hin].
  - rewrite !(bool_decide_eq_true_2 _ Hin). done.
  - rewrite !(bool_decide_eq_false_2 _ Hin).
    rewrite bool_decide_eq_true_2; [done|]. apply elem_of_app. right. left.
Qed.

Lemma fold_add_dependent self (l : list addr) (h : list Latent) x :
  foldl (λ h a, alter (add_dependent self) a h) h l !! x
  = (if bool_decide (x ∈ l) then add_dependent self <$> h !! x else h !! x).
Proof.
  revert h. induction l as [|a l IH]; intros h; cbn [foldl].
  - rewrite bool_decide_eq_false_2; [done | apply not_elem_of_nil].
  - rewrite IH, list_lookup_alter.
    destruct (decide (a = x)) as [->|Hne].
    + rewrite (bool_decide_eq_true_2 (x ∈ x :: l)) by left.
      case_bool_decide; [|done].
      destruct (h !! x) as [nd|]; simpl; [|done]. by rewrite add_dependent_idem.
    + case_bool_decide as Hl.
      * rewrite bool_decide_eq_true_2; [done | by right].
      * rewrite bool_decide_eq_false_2; [done|].
        intros [->|?]%elem_of_cons; done.
Qed.

Lemma Latent_init_lookup func args dis kwargs s x :
  heap (Latent_init func args dis kwargs s).2 !! x
  = (if bool_decide (x ∈ omap as_latent args ++ omap as_latent (kwargs.*2))
     then fmap (add_dependent (length (heap s))) else id)
      ((heap s ++ [{| _func := func; _args := args; _kwargs := kwargs;
                      disable_cache := dis; latent_data := None;
                      _needs_recomputation := false; _computing := false;
                      _dependents := [] |}]) !! x).
Proof.
  unfold Latent_init. cbn [snd heap with_heap]. rewrite !fold_add_dependent.
  set (h1 := heap s ++ _).
  destruct (decide (x ∈ omap as_latent args)) as [Ha|Ha];
    destruct (decide (x ∈ omap as_latent (kwargs.*2))) as [Hk|Hk].
  - assert (Hb : x ∈ omap as_latent args ++ omap as_latent (kwargs.*2))
      by (apply elem_of_app; by left).
    rewrite (bool_decide_eq_true_2 _ Ha), (bool_decide_eq_true_2 _ Hk),
      (bool_decide_eq_true_2 _ Hb).
    destruct (h1 !! x); simpl; [|done]. by rewrite add_dependent_idem.
  - assert (Hb : x ∈ omap as_latent args ++ omap as_latent (kwargs.*2))
      by (apply elem_of_app; by left).
    by rewrite (bool_decide_eq_true_2 _ Ha), (bool_decide_eq_false_2 _ Hk),
      (bool_decide_eq_true_2 _ Hb).
  - assert (Hb : x ∈ omap as_latent args ++ omap as_latent (kwargs.*2))
      by (apply elem_of_app; by right).
    by rewrite (bool_decide_eq_false_2 _ Ha), (bool_decide_eq_true_2 _ Hk),
      (bool_decide_eq_true_2 _ Hb).
  - assert (Hb : x ∉ omap as_latent args ++ omap as_latent (kwargs.*2))
      by (rewrite elem_of_app; tauto).
    by rewrite (bool_decide_eq_false_2 _ Ha), (bool_decide_eq_false_2 _ Hk),
      (bool_decide_eq_false_2 _ Hb).
Qed.

(** X1.  Calling a decorated function builds a node and runs nothing.
    When no keyword argument is named [disable_cache], [self] or [func]
    (and the arguments refer to objects that exist already, so not to the
    address of the object being made), the call returns the address of a
    new object; the invocation log and the shared visited set are as
    before; the new object holds the function and arguments given, is not
    computed ([computed] is false), not marked and not being computed.
    With a keyword argument of one of these three names the call raises a
    [TypeError] and changes nothing. *)
Theorem X1_decorated_call_is_lazy func dis args kwargs s :
  ((∀ k, k ∈ ["disable_cache"; "self"; "func"] → k ∉ kwargs.*1) →
   length (heap s) ∉ omap as_latent args ++ omap as_latent (kwargs.*2) →
   ∃ s' nd,
     latent func dis args kwargs s = (Returned (length (heap s)), s')
     ∧ calls s' = calls s ∧ default_visited s' = default_visited s
     ∧ length (heap s') = S (length (heap s))
     ∧ heap s' !! length (heap s) = Some nd
     ∧ _func nd = func ∧ _args nd = args ∧ _kwargs nd = kwargs
     ∧ disable_cache nd = dis ∧ Latent_computed nd = false
     ∧ _needs_recomputation nd = false ∧ _computing nd = false
     ∧ _dependents nd = [])
  ∧ (∀ k, k ∈ ["disable_cache"; "self"; "func"] → k ∈ kwargs.*1 →
     ∃ e, latent func dis args kwargs s = (Raised e, s) ∧ exn_type e = "TypeError").
Proof.
  split.
  - intros Hk Hfresh. unfold latent.
    rewrite bool_decide_eq_false_2 by (apply Hk; apply list_elem_of_here).
    assert (filter (λ k, k ∈ ["self"; "func"]) kwargs.*1 = []) as ->.
    { destruct (filter _ _) as [|k l] eqn:Ef; [done|exfalso].
      assert (k ∈ filter (λ k, k ∈ ["self"; "func"]) kwargs.*1) as Hin
        by (rewrite Ef; apply list_elem_of_here).
      apply list_elem_of_filter in Hin as [Hres Hin].
      apply (Hk k); [by apply list_elem_of_further|done]. }
    pose proof (Latent_init_lookup func args dis kwargs s (length (heap s))) as Hl.
    rewrite bool_decide_eq_false_2 in Hl by done.
    rewrite list_lookup_middle in Hl by done. cbv beta iota delta [id] in Hl.
    assert (Hlen : length (heap (Latent_init func args dis kwargs s).2)
                   = S (length (heap s))).
    { unfold Latent_init. simpl.
      assert (Hf : ∀ (l : list addr) (h : list Latent),
                length (foldl (λ h a, alter (add_dependent (length (heap s))) a h) h l)
                = length h).
      { induction l as [|a l IH]; intros h; simpl; [done|].
        by rewrite IH, length_alter. }
      rewrite !Hf, length_app. simpl. lia. }
    destruct (Latent_init func args dis kwargs s) as [self s'] eqn:E.
    assert (self = length (heap s)) as -> by (unfold Latent_init in E; by injection E).
    assert (calls s' = calls s ∧ default_visited s' = default_visited s) as [Hc Hv].
    { unfold Latent_init in E. injection E as <-. done. }
    cbn [snd] in *. eexists _, _. split; [done|]. split_and!; try done.
  - intros k Hres Hk. unfold latent. case_bool_decide; [by eexists|].
    destruct (filter _ _) as [|k' l] eqn:Ef; [|by eexists].
    exfalso. assert (k ∈ filter (λ k, k ∈ ["self"; "func"]) kwargs.*1) as Hin.
    { apply list_elem_of_filter. split; [|done].
      by apply elem_of_cons in Hres as [->|Hres]. }
    rewrite Ef in Hin. by apply elem_of_nil in Hin.
Qed.

Lemma X1_decorated_call_is_lazy_witness :
  ∃ s' nd,
    latent (int_fn "inc" Z.succ) false [VInt 1] [] empty_state = (Returned 0, s')
    ∧ heap s' !! 0 = Some nd
    ∧ Latent_computed nd = false.
Proof.
  destruct (proj1 (X1_decorated_call_is_lazy (int_fn "inc" Z.succ) false
                     [VInt 1] [] empty_state))
    as (s' & nd & H1 & _ & _ & _ & H2 & _ & _ & _ & _ & H3 & _).
  - intros k _. apply not_elem_of_nil.
  - apply not_elem_of_nil.
  - exists s', nd. split; [exact H1|]. split; [exact H2|exact H3].
Defined.

(** X2.  What construction does to the objects already there: an object
    that is itself a positional argument or a keyword-argument value of the
    new node gets the new node added to its [_dependents] (once); every
    other object, also one that only occurs inside a list or tuple argument,
    is left exactly as it was. *)
Theorem X2_construction_registers_direct_arguments func args dis kwargs s x nd :
  heap s !! x = Some nd →
  heap (Latent_init func args dis kwargs s).2 !! x
  = Some (if bool_decide (x ∈ omap as_latent args ++ omap as_latent (kwargs.*2))
          then add_dependent (length (heap s)) nd else nd)
  ∧ (x ∈ omap as_latent args ++ omap as_latent (kwargs.*2)
     ↔ VLatent x ∈ args ∨ VLatent x ∈ kwargs.*2).
Proof.
  intros Hx. split.
  - rewrite Latent_init_lookup.
    rewrite lookup_app_l by by eapply lookup_lt_Some. rewrite Hx.
    by case_bool_decide.
  - rewrite elem_of_app, !list_elem_of_omap. split.
    + intros [(v & Hv & Hl)|(v & Hv & Hl)]; destruct v; simplify_eq/=; auto.
    + intros [H|H]; [left|right]; by exists (VLatent x).
Qed.

Lemma X2_construction_registers_direct_arguments_witness :
  ∃ nd, heap st_nocache !! 0 = Some nd
        ∧ heap (Latent_init (int_fn "inc" Z.succ) [VLatent 0] false [] st_nocache).2 !! 0
          = Some (add_dependent 1 nd).
Proof.
  eexists. split; [reflexivity|].
  apply (proj1 (X2_construction_registers_direct_arguments
                  (int_fn "inc" Z.succ) [VLatent 0] false [] st_nocache 0 _ eq_refl)).
Defined.

(** ** Mutation *)

Lemma update_dependents_pointwise fuel :
  ∀ self h v h' v',
    _update_dependents fuel self (h, v) = Some (h', v') →
    ∀ x, h' !! x = h !! x ∨ h' !! x = mark_stale <$> h !! x.
Proof.
  induction fuel as [|fuel IH]; intros self h v h' v'; simpl; [done|].
  destruct (h !! self) as [nd|]; [|intros [= <- <-]; by left].
  fold (update_step fuel).
  assert (Hfold : ∀ ds h1 v1,
    foldl (update_step fuel) (Some (h1, v1)) ds = Some (h', v') →
    ∀ x, h' !! x = h1 !! x ∨ h' !! x = mark_stale <$> h1 !! x).
  { induction ds as [|d ds IHds]; intros h1 v1; simpl.
    - intros [= <- <-]. by left.
    - case_bool_decide as Hvis; [apply IHds|].
      destruct (_update_dependents fuel d (alter mark_stale d h1, d :: v1))
        as [[h2 v2]|] eqn:Ed; [|by rewrite update_fold_None].
      intros Hrest x.
      destruct (IHds _ _ Hrest x) as [->| ->];
        destruct (IH _ _ _ _ _ Ed x) as [->| ->];
        rewrite list_lookup_alter; case_decide; subst;
        destruct (h1 !! x); simpl; auto. }
  intros Hrun. by eapply Hfold.
Qed.

Lemma unvisited_le h v : unvisited h v ≤ length h.
Proof.
  unfold unvisited. pose proof (length_filter (λ a, a ∉ v) (seq 0 (length h))).
  by rewrite length_seq in *.
Qed.

Lemma update_with_effect change self s nd :
  dependents_ok (heap s) →
  heap s !! self = Some nd →
  (∀ x, _dependents (change x) = _dependents x) →
  ∃ s', update_with change self s = Some s'
        ∧ mutation_effect s self (change nd) s'.
Proof.
  intros Hok Hnd Hch. unfold update_with, _update_dependents_default.
  cbn [heap with_heap default_visited calls].
  set (h0 := alter (λ nd, set_needs_recomputation true (change nd)) self (heap s)).
  assert (L0 : length h0 = length (heap s)) by apply length_alter.
  assert (D0 : ∀ x, _dependents <$> h0 !! x = _dependents <$> heap s !! x).
  { intros x. unfold h0. rewrite list_lookup_alter. case_decide; [subst|done].
    rewrite Hnd. simpl. by rewrite Hch. }
  assert (Hok0 : dependents_ok h0) by by apply (dependents_ok_transfer (heap s)).
  destruct (update_dependents_total (S (length h0)) self h0 (default_visited s) Hok0)
    as [[h1 v1] E].
  { pose proof (unvisited_le h0 (default_visited s)). lia. }
  rewrite E. eexists. split; [done|].
  destruct (update_dependents_spec _ _ _ _ _ _ E) as [(A & L & D & U & M & C) _].
  pose proof (update_dependents_pointwise _ _ _ _ _ _ E) as P.
  unfold mutation_effect. cbn [heap with_heap default_visited calls].
  split_and!; try done.
  - rewrite list_lookup_alter_eq.
    destruct (P self) as [->| ->]; unfold h0;
      rewrite list_lookup_alter_eq, Hnd; simpl; done.
  - intros x. rewrite list_lookup_alter. case_decide; [subst|by rewrite D].
    rewrite <- D0, <- D. by destruct (h1 !! x).
  - intros x Hx. rewrite list_lookup_alter_ne by done.
    destruct (P x) as [->| ->]; unfold h0; rewrite list_lookup_alter_ne by done;
      auto.
  - intros x Hx Hv. rewrite list_lookup_alter_ne by done.
    rewrite U by auto. unfold h0. by rewrite list_lookup_alter_ne.
Qed.

(** X3.  [update_func] and [update_args] on a node of a store whose
    [_dependents] sets refer to objects of the store: the call returns, the
    node has the new function (the new arguments), is marked and has an
    empty cache; the invocation log is untouched; no [_dependents] set
    changes, so a node passed as a new argument is not told about its new
    dependent; every other object is as before, or marked with its cache
    cleared; and an object that was already in the shared visited set is as
    before. *)
Theorem X3_update_func_args_effect self func args s nd :
  dependents_ok (heap s) →
  heap s !! self = Some nd →
  (∃ s', update_func self func s = Some s'
         ∧ mutation_effect s self (set_func func nd) s')
  ∧ (∃ s', update_args self args s = Some s'
           ∧ mutation_effect s self (set_args args nd) s').
Proof.
  intros Hok Hnd. split.
  - by apply (update_with_effect (set_func func)).
  - by apply (update_with_effect (set_args args)).
Qed.

Lemma X3_update_func_args_effect_witness :
  ∃ nd, heap st_expr !! 0 = Some nd
        ∧ (∃ s', update_func 0 (int_op "add" Z.add) st_expr = Some s'
                 ∧ mutation_effect st_expr 0 (set_func (int_op "add" Z.add) nd) s')
        ∧ (∃ s', update_args 0 [VInt 5; VInt 6] st_expr = Some s'
                 ∧ mutation_effect st_expr 0 (set_args [VInt 5; VInt 6] nd) s').
Proof.
  eexists. split; [reflexivity|].
  apply X3_update_func_args_effect;
    [apply dependents_ok_checked; reflexivity | reflexivity].
Defined.

Lemma dict_get_set k k' v d :
  dict_get k (dict_set k' v d) = if String.eqb k k' then Some v else dict_get k d.
Proof.
  induction d as [|[k0 v0] d IH]; simpl.
  - by destruct (String.eqb k k').
  - destruct (String.eqb k' k0) eqn:E0; simpl.
    + apply String.eqb_eq in E0 as ->. by destruct (String.eqb k k0).
    + destruct (String.eqb k k0) eqn:E1; [|done].
      apply String.eqb_eq in E1 as ->.
      destruct (String.eqb k0 k') eqn:E2; [|done].
      apply String.eqb_eq in E2 as ->. by rewrite String.eqb_refl in E0.
Qed.

Lemma dict_set_keys k v d :
  (dict_set k v d).*1 = if bool_decide (k ∈ d.*1) then d.*1 else d.*1 ++ [k].
Proof.
  induction d as [|[k0 v0] d IH]; cbn [dict_set].
  - rewrite bool_decide_eq_false_2; [done | apply not_elem_of_nil].
  - rewrite (fmap_cons fst (k0, v0) d). cbn [fst].
    destruct (String.eqb k k0) eqn:E0.
    + apply String.eqb_eq in E0 as ->.
      rewrite bool_decide_eq_true_2; [done|left].
    + apply String.eqb_neq in E0. rewrite fmap_cons, IH. cbn [fst].
      destruct (decide (k ∈ d.*1)) as [Hin|Hin].
      * rewrite (bool_decide_eq_true_2 _ Hin).
        rewrite bool_decide_eq_true_2; [done|by right].
      * rewrite (bool_decide_eq_false_2 _ Hin).
        rewrite bool_decide_eq_false_2; [done|].
        intros [?|?]%elem_of_cons; done.
Qed.

Lemma dict_update_snoc d new k v :
  dict_update d (new ++ [(k, v)]) = dict_set k v (dict_update d new).
Proof. unfold dict_update. by rewrite foldl_snoc. Qed.

Lemma dict_get_update k d new :
  dict_get k (dict_update d new)
  = match dict_get k (reverse new) with
    | Some v => Some v
    | None => dict_get k d
    end.
Proof.
  induction new as [|[k' v'] new IH] using rev_ind; [done|].
  rewrite dict_update_snoc, dict_get_set, reverse_snoc. simpl.
  by destruct (String.eqb k k').
Qed.

Lemma dict_update_keys_NoDup d new : NoDup d.*1 → NoDup (dict_update d new).*1.
Proof.
  intros Hd. induction new as [|[k' v'] new IH] using rev_ind; [done|].
  rewrite dict_update_snoc, dict_set_keys. case_bool_decide; [done|].
  apply NoDup_app. split_and!; [done| |apply NoDup_singleton].
  intros x Hx ->%list_elem_of_singleton. done.
Qed.

(** X4.  [update_kwargs]: with [full_reset] the keyword arguments become
    the ones given; without it they are merged into the old ones, so that
    afterwards a key given in the call has its new value, any other key has
    the value it had, and keys stay distinct.  In both cases the node is
    marked and its cache emptied, as for the other mutators. *)
Theorem X4_update_kwargs_effect self full_reset kwargs s nd :
  dependents_ok (heap s) →
  heap s !! self = Some nd →
  ∃ s' kw',
    update_kwargs self full_reset kwargs s = Some s'
    ∧ mutation_effect s self (set_kwargs kw' nd) s'
    ∧ (full_reset = true → kw' = kwargs)
    ∧ (full_reset = false →
       (∀ k, dict_get k kw'
             = match dict_get k (reverse kwargs) with
               | Some v => Some v
               | None => dict_get k (_kwargs nd)
               end)
       ∧ (NoDup (_kwargs nd).*1 → NoDup kw'.*1)).
Proof.
  intros Hok Hnd.
  destruct (update_with_effect
              (λ nd, set_kwargs (if full_reset then kwargs
                                 else dict_update (_kwargs nd) kwargs) nd)
              self s nd Hok Hnd) as (s' & Hs' & Heff); [done|].
  exists s', (if full_reset then kwargs else dict_update (_kwargs nd) kwargs).
  split; [done|]. split; [done|]. split; intros ->; [done|]. split.
  - intros k. apply dict_get_update.
  - apply dict_update_keys_NoDup.
Qed.

Lemma X4_update_kwargs_effect_witness :
  ∃ nd, heap st_expr !! 0 = Some nd
        ∧ ∃ s' kw',
            update_kwargs 0 false [("k", VInt 1)] st_expr = Some s'
            ∧ mutation_effect st_expr 0 (set_kwargs kw' nd) s'
            ∧ (false = true → kw' = [("k", VInt 1)])
            ∧ (false = false →
               (∀ k, dict_get k kw'
                     = match dict_get k (reverse [("k", VInt 1)]) with
                       | Some v => Some v
                       | None => dict_get k (_kwargs nd)
                       end)
               ∧ (NoDup (_kwargs nd).*1 → NoDup kw'.*1)).
Proof.
  eexists. split; [reflexivity|].
  apply X4_update_kwargs_effect;
    [apply dependents_ok_checked; reflexivity | reflexivity].
Defined.

Lemma same_dependents_length (h h' : list Latent) :
  (∀ x, _dependents <$> h' !! x = _dependents <$> h !! x) →
  length h' = length h.
Proof.
  intros D. destruct (decide (length h' = length h)) as [|Hl]; [done|].
  exfalso. destruct (decide (length h < length h')).
  - specialize (D (length h)).
    rewrite (lookup_ge_None_2 h) in D by lia.
    destruct (lookup_lt_is_Some_2 h' (length h)) as [? Hx]; [lia|].
    by rewrite Hx in D.
  - specialize (D (length h')).
    rewrite (lookup_ge_None_2 h') in D by lia.
    destruct (lookup_lt_is_Some_2 h (length h')) as [? Hx]; [lia|].
    by rewrite Hx in D.
Qed.

(** X5.  While the shared visited set is still empty, the mutators do what
    their docstrings say.  On a store whose [_dependents] sets refer to
    objects of the store, [update_func], [update_args] and [update_kwargs]
    return, the node is marked and its cache is empty, and so is every node
    downstream of it, however far; and each of these downstream nodes is
    left in the shared set. *)
Theorem X5_first_mutation_marks_all_downstream self func args full_reset kwargs s :
  dependents_ok (heap s) →
  default_visited s = [] →
  is_Some (heap s !! self) →
  ∀ mutate,
    mutate = update_func self func ∨ mutate = update_args self args
    ∨ mutate = update_kwargs self full_reset kwargs →
    ∃ s', mutate s = Some s'
          ∧ marked (heap s') self
          ∧ ∀ d, downstream (heap s) self d →
                 marked (heap s') d ∧ d ∈ default_visited s'.
Proof.
  intros Hok Hv [nd Hnd] mutate [->|[->| ->]];
    by apply (update_with_fresh_set _ self s nd).
Qed.

Lemma X5_first_mutation_marks_all_downstream_witness :
  ∃ s', update_args 0 [VInt 7; VInt 8] st_expr = Some s'
        ∧ marked (heap s') 0
        ∧ ∀ d, downstream (heap st_expr) 0 d →
               marked (heap s') d ∧ d ∈ default_visited s'.
Proof.
  apply (X5_first_mutation_marks_all_downstream 0 (int_op "add" Z.add)
           [VInt 7; VInt 8] false [] st_expr).
  - apply dependents_ok_checked; reflexivity.
  - reflexivity.
  - eexists; reflexivity.
  - right; left; reflexivity.
Defined.

(** X6.  The shared visited set at work over two mutations.  [change1] and
    [change2] stand for the assignments of two mutators ([_func], [_args] or
    [_kwargs]); none touches [_dependents].  Let the first mutation, of
    [a], start from an empty set, and let [d] be downstream of [a].
    Whatever is computed afterwards, a later mutation of any other node [b]
    leaves [d] exactly as it is, even when [d] is downstream of [b]: [d] is
    still in the set. *)
Theorem X6_later_mutation_skips_visited change1 change2 a b d s s1 s2 s3 :
  dependents_ok (heap s) →
  default_visited s = [] →
  is_Some (heap s !! a) →
  (∀ x, _dependents (change1 x) = _dependents x) →
  (∀ x, _dependents (change2 x) = _dependents x) →
  downstream (heap s) a d →
  update_with change1 a s = Some s1 →
  evolves s1 s2 →
  is_Some (heap s2 !! b) → d ≠ b →
  update_with change2 b s2 = Some s3 →
  heap s3 !! d = heap s2 !! d.
Proof.
  intros Hok Hv [nda Ha] Hc1 Hc2 Hd H1 Hev [ndb Hb] Hne H3.
  destruct (update_with_fresh_set change1 a s nda Hok Hv Ha Hc1)
    as (s1' & H1' & _ & Hdown).
  rewrite H1 in H1'. injection H1' as <-.
  destruct (Hdown d Hd) as [_ Hin].
  destruct (update_with_effect change1 a s nda Hok Ha Hc1) as (s1' & H1' & E1).
  rewrite H1 in H1'. injection H1' as <-.
  destruct E1 as (_ & _ & D1 & _).
  assert (D2 : ∀ x, _dependents <$> heap s2 !! x = _dependents <$> heap s !! x).
  { intros x. rewrite <- D1. destruct Hev as (_ & _ & P). specialize (P x).
    destruct (heap s1 !! x) as [n1|], (heap s2 !! x) as [n2|]; simpl in *;
      try done.
    destruct P as [Heq _].
    by apply same_but_cache in Heq as (_ & _ & _ & _ & _ & _ & ->). }
  assert (Hok2 : dependents_ok (heap s2)).
  { apply (dependents_ok_transfer (heap s));
      [by apply same_dependents_length|done|done]. }
  destruct (update_with_effect change2 b s2 ndb Hok2 Hb Hc2) as (s3' & H3' & E3).
  rewrite H3 in H3'. injection H3' as <-.
  destruct E3 as (_ & _ & _ & _ & Hskip & _).
  apply Hskip; [done|]. destruct Hev as (-> & _). done.
Qed.

Lemma X6_later_mutation_skips_visited_witness :
  heap (or_empty (update_args 0 [VInt 3] st_chain_0)) !! 1 = heap st_chain_0 !! 1.
Proof.
  apply (X6_later_mutation_skips_visited (set_args [VInt 2]) (set_args [VInt 3])
           0 0 1 st_pair st_chain_0 st_chain_0).
  - apply dependents_ok_checked; reflexivity.
  - reflexivity.
  - eexists; reflexivity.
  - reflexivity.
  - reflexivity.
  - apply downstream_direct. exists [1]. split; [reflexivity|apply list_elem_of_here].
  - vm_compute; reflexivity.
  - apply evolves_refl.
  - eexists; reflexivity.
  - lia.
  - vm_compute; reflexivity.
Defined.

(** ** The dependency graph, exactly *)

Lemma ancestor_trans h n m a : ancestor h n m → ancestor h m a → ancestor h n a.
Proof.
  intros Hnm Hma. induction Hma as [_|k a _ IH Hdep Hs]; [done|].
  by eapply ancestor_step.
Qed.

Lemma ancestor_root h n a : ancestor h n a → is_Some (h !! n).
Proof. induction 1; auto. Qed.











(** ** What a call of [compute] does and does not do *)

(** X9.  A call of [compute], on any node, with any flags and any outcome,
    changes nothing but caches and the invocation log: every object keeps
    its function, arguments, keyword arguments, [disable_cache],
    [_needs_recomputation], [_computing] and [_dependents]; no object is
    created; the shared visited set is the same; and the log is the old one
    with zero or more entries put in front. *)
Theorem X9_compute_changes_caches_only fuel self fr rd dc md s r s' x nd :
  compute fuel self fr rd dc md s = (r, s') →
  heap s !! x = Some nd →
  (∃ nd', heap s' !! x = Some nd'
          ∧ _func nd' = _func nd ∧ _args nd' = _args nd
          ∧ _kwargs nd' = _kwargs nd ∧ disable_cache nd' = disable_cache nd
          ∧ _needs_recomputation nd' = _needs_recomputation nd
          ∧ _computing nd' = _computing nd ∧ _dependents nd' = _dependents nd)
  ∧ length (heap s') = length (heap s)
  ∧ default_visited s' = default_visited s
  ∧ ∃ new, calls s' = new ++ calls s.
Proof.
  intros Hrun Hx. pose proof (compute_evolving _ _ _ _ _ _ _ _ _ Hrun) as Hev.
  split_and!.
  - destruct (lookup_evolves _ _ _ _ Hev Hx) as (nd' & Hnd' & Heq).
    exists nd'. split; [done|]. by apply same_but_cache.
  - by apply evolves_length.
  - by destruct Hev.
  - by destruct Hev as (_ & ? & _).
Qed.

Lemma X9_compute_changes_caches_only_witness :
  default_visited (compute 3 2 false false false None st_expr).2
  = default_visited st_expr.
Proof.
  destruct (X9_compute_changes_caches_only 3 2 false false false None st_expr
              _ _ 0 _ (surjective_pairing _) eq_refl) as (_ & _ & H & _).
  exact H.
Defined.

(** X10.  Recursion depth is bounded by the number of objects: on a store
    whose arguments refer to its own objects, [compute] on any of them, with
    as much fuel as there are objects, ends with a value or an exception.
    Cycles do not make it loop: the ones through direct arguments are
    refused by the cycle check, the others are cut by the [_computing]
    guard. *)
Theorem X10_compute_ends self fr rd dc md s :
  store_ok (heap s) = true →
  self < length (heap s) →
  (compute (length (heap s)) self fr rd dc md s).1 ≠ NoResult.
Proof. apply compute_terminates. Qed.

Lemma X10_compute_ends_witness :
  store_ok (heap st_loop) = true
  ∧ (compute (length (heap st_loop)) 1 false false false None st_loop).1 ≠ NoResult.
Proof.
  split; [reflexivity|].
  apply X10_compute_ends; [reflexivity | vm_compute; lia].
Defined.

(** X11.  The cache at work.  On a caching node that is not being computed
    and whose graph is acyclic and has no marked node, a call that returns
    [v] is followed by a cache hit: the next call, whatever its
    [dont_cache] and [maximum_depth], returns [v] again and leaves the
    state as it is, so no callable runs. *)
Theorem X11_second_call_hits_the_cache fuel fuel' self md dc' md' s nd G v s' :
  heap s !! self = Some nd →
  _computing nd = false →
  disable_cache nd = false →
  get_dependency_graph (heap s) self = Some G →
  validate_no_cycles G = None →
  stale_nodes G = [] →
  compute fuel self false false false md s = (Returned v, s') →
  compute fuel' self false false dc' md' s' = (Returned v, s').
Proof. apply second_call_is_cache_hit. Qed.

Lemma X11_second_call_hits_the_cache_witness :
  compute 1 2 false false true (Some 0%Z) st_expr_computed
  = (Returned (VInt 1030), st_expr_computed).
Proof.
  eapply (X11_second_call_hits_the_cache 3 1 2 None true (Some 0%Z) st_expr);
    [reflexivity | reflexivity | reflexivity | vm_compute; reflexivity
    | reflexivity | reflexivity | vm_compute; reflexivity].
Defined.

(** X12.  The cache of a node built with [disable_cache=True], or of a node
    that is being computed, is never filled by a call of [compute] on
    whatever node: after the call it is what it was, or empty. *)
Theorem X12_disabled_cache_is_never_filled fuel self fr rd dc md s r s' x nd :
  compute fuel self fr rd dc md s = (r, s') →
  heap s !! x = Some nd →
  disable_cache nd = true ∨ _computing nd = true →
  ∃ nd', heap s' !! x = Some nd'
         ∧ (latent_data nd' = None ∨ latent_data nd' = latent_data nd).
Proof.
  intros Hrun Hx Hf.
  destruct (compute_evolving _ _ _ _ _ _ _ _ _ Hrun) as (_ & _ & P).
  specialize (P x). rewrite Hx in P.
  destruct (heap s' !! x) as [nd'|]; [|done]. destruct P as [_ F].
  exists nd'. split; [done|]. apply F. unfold frozen.
  destruct Hf as [->| ->]; [apply orb_true_r | done].
Qed.

Lemma X12_disabled_cache_is_never_filled_witness :
  ∃ nd, heap st_nocache !! 0 = Some nd
        ∧ ∃ nd', heap (compute 2 0 false false false None st_nocache).2 !! 0
                 = Some nd'
                 ∧ (latent_data nd' = None ∨ latent_data nd' = latent_data nd).
Proof.
  eexists. split; [reflexivity|].
  eapply (X12_disabled_cache_is_never_filled 2 0 false false false None st_nocache);
    [apply surjective_pairing | reflexivity | left; reflexivity].
Defined.

Lemma uncached_or_forced_call_executes fuel self fr rd dc md s nd v s' :
  heap s !! self = Some nd →
  latent_data nd = None ∨ fr = true ∨ rd = true →
  compute fuel self fr rd dc md s = (Returned v, s') →
  ∃ mid, calls s' = self :: mid ++ calls s.
Proof.
  intros Hnd Hwhy Hrun.
  rewrite compute_unfold in Hrun.
  pose proof (compute_below_evolving fuel) as Hrec.
  apply compute_body_path in Hrun.
  remember (Returned v) as r eqn:Hr.
  destruct Hrun as [ | | | | | ? G nd1 v0 Hnd' _ _ _ Hnd1 Hfr Hrd _ Hv
                   | ? G nd1 r s3 _ _ _ _ _ _ Htry]; try done.
  - exfalso. destruct Hwhy as [Hnone|[?|?]]; [|congruence|congruence].
    destruct (correct_computed_status_cleared G s self) as [H|H];
      rewrite Hnd, Hnd1 in H; simplify_eq/=; congruence.
  - destruct (slow_path_executed _ _ _ _ _ _ _ _ _ Hrec Htry Hr) as [mid Hmid].
    destruct (correct_computed_status_evolves G s) as (_ & [pre Hpre] & _).
    exists (mid ++ pre). rewrite Hmid, Hpre. by rewrite app_assoc.
Qed.

(** X13.  When the cache cannot serve, the callable runs.  If the cache of
    the node is empty, or [force_recompute] or [recompute_dependencies] is
    set, a call that returns a value has entered the callable of the node
    during the call.  If moreover caching is neither disabled for the node
    nor suppressed for the call, the node is [computed] afterwards and its
    cache holds the value returned. *)
Theorem X13_uncached_or_forced_call_runs fuel self fr rd dc md s nd v s' :
  heap s !! self = Some nd →
  latent_data nd = None ∨ fr = true ∨ rd = true →
  compute fuel self fr rd dc md s = (Returned v, s') →
  (∃ mid, calls s' = self :: mid ++ calls s)
  ∧ (disable_cache nd = false → dc = false →
     ∃ nd', heap s' !! self = Some nd'
            ∧ latent_data nd' = Some v ∧ Latent_computed nd' = true).
Proof.
  intros Hnd Hwhy Hrun. split.
  - by eapply uncached_or_forced_call_executes.
  - intros Hd ->.
    destruct (compute_returned_is_cached _ _ _ _ _ _ _ _ _ Hnd Hd Hrun)
      as (nd' & Hnd' & Hv).
    exists nd'. split_and!; [done|done|].
    unfold Latent_computed. rewrite Hv. by apply bool_decide_eq_true_2.
Qed.

Lemma X13_uncached_or_forced_call_runs_witness :
  ∃ nd, heap st_expr !! 2 = Some nd
        ∧ (∃ mid, calls st_expr_computed = 2 :: mid ++ calls st_expr)
        ∧ (disable_cache nd = false → false = false →
           ∃ nd', heap st_expr_computed !! 2 = Some nd'
                  ∧ latent_data nd' = Some (VInt 1030)
                  ∧ Latent_computed nd' = true).
Proof.
  eexists. split; [reflexivity|].
  apply (X13_uncached_or_forced_call_runs 3 2 false false false None st_expr);
    [reflexivity | left; reflexivity | vm_compute; reflexivity].
Defined.

(** ** [compute_nested] on plain data and beyond the depth limit *)

Lemma mapM_identity {A} (f : A → M A) (l : list A) s :
  Forall (λ x, ∀ s, f x s = (Returned x, s)) l →
  mapM f l s = (Returned l, s).
Proof.
  intros H. revert s. induction H as [|x l Hx _ IH]; intros s; [done|].
  simpl. unfold bind. rewrite Hx. by rewrite IH.
Qed.

(** X14.  [compute_nested] gives back plain data as it is: on a value with
    no node inside (a number, a string, [None], or lists and tuples of
    such, nested at will) it returns an equal value and touches nothing,
    whatever the flags, the depth and the depth limit. *)
Theorem X14_compute_nested_keeps_plain_data rec obj fr dc depth md s :
  plain obj = true →
  compute_nested rec obj fr dc depth md s = (Returned obj, s).
Proof.
  revert fr dc depth md s.
  induction obj as [|z|str|a|xs IH|xs IH] using value_nested_ind;
    intros fr dc depth md s Hp; simpl;
    destruct (depth_exceeded depth md); try done.
  - unfold bind. rewrite mapM_identity; [done|].
    simpl in Hp. rewrite forallb_Forall in Hp.
    rewrite Forall_forall in IH, Hp. apply Forall_forall.
    intros x Hx s0. apply IH; auto.
  - unfold bind. rewrite mapM_identity; [done|].
    simpl in Hp. rewrite forallb_Forall in Hp.
    rewrite Forall_forall in IH, Hp. apply Forall_forall.
    intros x Hx s0. apply IH; auto.
Qed.

Lemma X14_compute_nested_keeps_plain_data_witness :
  compute_nested (compute 1) (VList [VInt 1; VTuple [VStr "a"; VNone]])
    true false 0 (Some 5%Z) st_expr
  = (Returned (VList [VInt 1; VTuple [VStr "a"; VNone]]), st_expr).
Proof. apply X14_compute_nested_keeps_plain_data. reflexivity. Defined.

Lemma compute_nested_exceeded rec obj fr dc depth md s :
  depth_exceeded depth md = true →
  compute_nested rec obj fr dc depth md s = (Returned obj, s).
Proof. intros H. destruct obj; simpl; by rewrite H. Qed.

Lemma try_block_unresolved rec self rd dc m s nd :
  heap s !! self = Some nd →
  (m < 0)%Z →
  try_block rec self rd dc (Some m) s
  = match body (_func nd) (_args nd) (_kwargs nd) with
    | inl v => (Returned v,
                if negb (disable_cache nd) && negb dc
                then LatentData_set self v (log_call self s)
                else log_call self s)
    | inr e => (Raised e, log_call self s)
    end.
Proof.
  intros Hnd Hm.
  assert (Hex : depth_exceeded 0 (Some m) = true).
  { simpl. by apply Z.ltb_lt. }
  unfold try_block.
  unfold bind at 1. unfold get_node at 1. rewrite Hnd.
  unfold bind at 1. rewrite mapM_identity.
  2:{ apply Forall_forall. intros x _ s0. by apply compute_nested_exceeded. }
  unfold bind at 1. unfold get_node at 1. rewrite Hnd.
  unfold bind at 1. rewrite mapM_identity.
  2:{ apply Forall_forall. intros [k v] _ s0. unfold bind.
      by rewrite compute_nested_exceeded. }
  unfold bind at 1. unfold get_node at 1. rewrite Hnd.
  unfold bind at 1. unfold modify at 1.
  destruct (body (_func nd) (_args nd) (_kwargs nd)) as [v|e]; [|done].
  unfold bind, modify, ret. by destruct (negb (disable_cache nd) && negb dc).
Qed.

(** X15.  A negative [maximum_depth] switches the resolution of arguments
    off.  A call that reaches the [try] block then applies the callable to
    the stored arguments and keyword arguments as they are, nodes among
    them included, and returns its value or wraps its exception; the
    callable of the node is the only one that runs. *)
Theorem X15_negative_depth_resolves_nothing fuel self fr rd dc m s nd G :
  heap s !! self = Some nd →
  _computing nd = false →
  get_dependency_graph (heap s) self = Some G →
  validate_no_cycles G = None →
  ¬ cache_eligible fr rd G s nd →
  (m < 0)%Z →
  (compute fuel self fr rd dc (Some m) s).1
  = match body (_func nd) (_args nd) (_kwargs nd) with
    | inl v => Returned v
    | inr e => Raised (wrap_error (__name__ (_func nd)) e)
    end
  ∧ calls (compute fuel self fr rd dc (Some m) s).2 = self :: calls s.
Proof.
  intros Hnd Hc HG Hval Hne Hm. rewrite compute_unfold.
  rewrite (compute_body_guarded _ _ _ _ _ _ _ _ _ Hnd Hc HG Hval).
  rewrite decide_False by done.
  pose proof (correct_computed_status_evolves G s) as Hev.
  set (s1 := (correct_computed_status G s).2) in *.
  destruct (lookup_evolves _ _ _ _ Hev Hnd) as (nd1 & Hnd1 & Heq).
  apply same_but_cache in Heq as (Hf & Ha & Hk & Hd & _).
  assert (H2 : heap (set_computing_flag self true s1) !! self
               = Some (set_computing true nd1)).
  { by rewrite lookup_set_computing_flag, decide_True, Hnd1. }
  rewrite (try_block_unresolved _ _ _ _ _ _ _ H2 Hm).
  cbn [set_computing _func _args _kwargs disable_cache].
  rewrite Hf, Ha, Hk, Hd.
  destruct (body (_func nd) (_args nd) (_kwargs nd)) as [v|e];
    cbn [fst snd reraise].
  - split; [done|].
    by destruct (negb (disable_cache nd) && negb dc).
  - cbn [heap log_call]. rewrite H2. cbn [set_computing _func].
    by rewrite Hf.
Qed.

Lemma X15_negative_depth_resolves_nothing_witness :
  ∃ nd,
    heap st_expr !! 2 = Some nd
    ∧ (compute 3 2 true false false (Some (-1)%Z) st_expr).1
      = match body (_func nd) (_args nd) (_kwargs nd) with
        | inl v => Returned v
        | inr e => Raised (wrap_error (__name__ (_func nd)) e)
        end
    ∧ calls (compute 3 2 true false false (Some (-1)%Z) st_expr).2
      = 2 :: calls st_expr.
Proof.
  eexists. split; [reflexivity|].
  eapply X15_negative_depth_resolves_nothing;
    [reflexivity | reflexivity | vm_compute; reflexivity | reflexivity
    | intros [H _]; discriminate H | lia].
Defined.

(** ** [clear_cache] *)

Lemma foldl_option_None {A B} (f : A → B → option A) (l : list B) :
  foldl (λ acc x, match acc with None => None | Some b => f b x end) None l = None.
Proof. by induction l. Qed.

Lemma foldl_option_inv {A B} (f : A → B → option A) (R : A → A → Prop) :
  (∀ a, R a a) →
  (∀ a b c, R a b → R b c → R a c) →
  ∀ l a a',
    (∀ x b b', x ∈ l → R a b → f b x = Some b' → R b b') →
    foldl (λ acc x, match acc with None => None | Some b => f b x end) (Some a) l
    = Some a' →
    R a a'.
Proof.
  intros R_refl R_trans.
  induction l as [|y l IH]; intros a a' Hstep Hrun.
  - simpl in Hrun. by simplify_eq.
  - simpl in Hrun.
    destruct (f a y) as [a1|] eqn:Ey.
    2:{ by rewrite foldl_option_None in Hrun. }
    assert (R a a1) as H1.
    { eapply Hstep; [left| |]; eauto. }
    apply R_trans with a1; [done|]. apply IH; [|done].
    intros x b b' Hx Hb Hf. eapply Hstep; [by right| |done]. eauto.
Qed.

Lemma foldl_option_elem {A B} (f : A → B → option A) (R : A → A → Prop) :
  (∀ a, R a a) →
  (∀ a b c, R a b → R b c → R a c) →
  ∀ l a a' x,
    (∀ x b b', x ∈ l → R a b → f b x = Some b' → R b b') →
    x ∈ l →
    foldl (λ acc x, match acc with None => None | Some b => f b x end) (Some a) l
    = Some a' →
    ∃ b b', R a b ∧ f b x = Some b' ∧ R b' a'.
Proof.
  intros R_refl R_trans.
  induction l as [|y l IH]; intros a a' x Hstep Hx Hrun.
  - by apply elem_of_nil in Hx.
  - simpl in Hrun.
    destruct (f a y) as [a1|] eqn:Ey.
    2:{ by rewrite foldl_option_None in Hrun. }
    assert (R a a1) as H1.
    { eapply Hstep; [left| |]; eauto. }
    assert (∀ x b b', x ∈ l → R a1 b → f b x = Some b' → R b b') as Hstep'.
    { intros z b b' Hz Hb Hf. eapply Hstep; [by right| |done]. eauto. }
    apply elem_of_cons in Hx as [->|Hx].
    + exists a, a1. split_and!; [done|done|].
      by apply (foldl_option_inv f R R_refl R_trans l).
    + destruct (IH a1 a' x Hstep' Hx Hrun) as (b & b' & Hb & Hf & Hb').
      exists b, b'. split_and!; eauto.
Qed.

Lemma foldl_option_total {A B} (f : A → B → option A) (R : A → A → Prop) :
  (∀ a, R a a) →
  (∀ a b c, R a b → R b c → R a c) →
  ∀ l a,
    (∀ x b, x ∈ l → R a b → ∃ b', f b x = Some b' ∧ R b b') →
    ∃ a', foldl (λ acc x, match acc with None => None | Some b => f b x end)
            (Some a) l = Some a'.
Proof.
  intros R_refl R_trans.
  induction l as [|y l IH]; intros a Hstep.
  - by exists a.
  - simpl.
    destruct (Hstep y a) as (a1 & Ey & H1); [left|done|]. rewrite Ey.
    apply IH. intros x b Hx Hb. apply Hstep; [by right|]. eauto.
Qed.

(** The two loops of [clear_cache], after the node's own cache is emptied. *)
Lemma clear_cache_unfold fuel self deps depd h :
  clear_cache (S fuel) self deps depd h
  = match (if deps
           then foldl (λ acc o, match acc with
                                | None => None
                                | Some h' => clear_cache fuel o true false h'
                                end)
                  (Some (alter (set_latent_data None) self h))
                  (from_option latent_args []
                     (alter (set_latent_data None) self h !! self))
           else Some (alter (set_latent_data None) self h)) with
    | None => None
    | Some h1 =>
      if depd
      then foldl (λ acc o, match acc with
                           | None => None
                           | Some h' => clear_cache fuel o false true h'
                           end)
             (Some h1) (from_option _dependents [] (h1 !! self))
      else Some h1
    end.
Proof. done. Qed.

Lemma only_emptied_refl h : only_emptied h h.
Proof. intros x. by left. Qed.

Lemma only_emptied_trans h1 h2 h3 :
  only_emptied h1 h2 → only_emptied h2 h3 → only_emptied h1 h3.
Proof.
  intros H12 H23 x. destruct (H12 x) as [E1|E1], (H23 x) as [E2|E2];
    rewrite E2, E1; [by left|by right|by right|right].
  by destruct (h1 !! x).
Qed.

Lemma only_emptied_alter self h :
  only_emptied h (alter (set_latent_data None) self h).
Proof.
  intros x. rewrite list_lookup_alter. case_decide; [subst; by right|by left].
Qed.

Lemma only_emptied_args h h' x :
  only_emptied h h' → latent_args <$> h' !! x = latent_args <$> h !! x.
Proof. intros H. destruct (H x) as [->| ->]; [done|]. by destruct (h !! x). Qed.

Lemma only_emptied_dependents h h' x :
  only_emptied h h' → _dependents <$> h' !! x = _dependents <$> h !! x.
Proof. intros H. destruct (H x) as [->| ->]; [done|]. by destruct (h !! x). Qed.

Lemma only_emptied_is_Some h h' x :
  only_emptied h h' → is_Some (h' !! x) ↔ is_Some (h !! x).
Proof.
  intros H. destruct (H x) as [->| ->]; [done|].
  by rewrite fmap_is_Some.
Qed.

Lemma only_emptied_dependency h h' n a :
  only_emptied h h' → dependency h' n a ↔ dependency h n a.
Proof.
  intros H. pose proof (only_emptied_args _ _ n H) as E. unfold dependency.
  split; intros (nd & Hnd & Ha).
  - rewrite Hnd in E. destruct (h !! n) as [nd0|]; [|done].
    exists nd0. split; [done|]. injection E as E. congruence.
  - rewrite Hnd in E. destruct (h' !! n) as [nd0|]; [|done].
    exists nd0. split; [done|]. injection E as E. congruence.
Qed.

Lemma only_emptied_dependent_of h h' n d :
  only_emptied h h' → dependent_of h' n d ↔ dependent_of h n d.
Proof.
  intros H. unfold dependent_of. by rewrite (only_emptied_dependents _ _ n H).
Qed.

Lemma only_emptied_ancestor h h' n a :
  only_emptied h h' → ancestor h' n a ↔ ancestor h n a.
Proof.
  intros H. split; induction 1 as [Hn|m a _ IH Hd Ha].
  - apply ancestor_self. by apply (only_emptied_is_Some _ _ _ H).
  - eapply ancestor_step; [done| |].
    + by apply (only_emptied_dependency _ _ _ _ H).
    + by apply (only_emptied_is_Some _ _ _ H).
  - apply ancestor_self. by apply (only_emptied_is_Some _ _ _ H).
  - eapply ancestor_step; [done| |].
    + by apply (only_emptied_dependency _ _ _ _ H).
    + by apply (only_emptied_is_Some _ _ _ H).
Qed.

Lemma only_emptied_downstream h h' n d :
  only_emptied h h' → downstream h' n d ↔ downstream h n d.
Proof.
  intros H. split; induction 1 as [d Hd|m d _ IH Hd].
  - apply downstream_direct. by apply (only_emptied_dependent_of _ _ _ _ H).
  - eapply downstream_step; [done|]. by apply (only_emptied_dependent_of _ _ _ _ H).
  - apply downstream_direct. by apply (only_emptied_dependent_of _ _ _ _ H).
  - eapply downstream_step; [done|]. by apply (only_emptied_dependent_of _ _ _ _ H).
Qed.

Lemma clear_cache_only_empties fuel : ∀ self deps depd h h',
  clear_cache fuel self deps depd h = Some h' → only_emptied h h'.
Proof.
  induction fuel as [|fuel IH]; intros self deps depd h h' Hrun; [done|].
  rewrite clear_cache_unfold in Hrun.
  pose proof (only_emptied_alter self h) as H0.
  set (h0 := alter (set_latent_data None) self h) in *.
  destruct (if deps then _ else _) as [h1|] eqn:E1; [|done].
  assert (only_emptied h0 h1) as H1.
  { destruct deps; [|simplify_eq; apply only_emptied_refl].
    eapply (foldl_option_inv (λ b x, clear_cache fuel x true false b));
      [apply only_emptied_refl|apply only_emptied_trans| |exact E1].
    intros x b b' _ _ Hf. by apply IH in Hf. }
  assert (only_emptied h1 h') as H2.
  { destruct depd; [|simplify_eq; apply only_emptied_refl].
    eapply (foldl_option_inv (λ b x, clear_cache fuel x false true b));
      [apply only_emptied_refl|apply only_emptied_trans| |exact Hrun].
    intros x b b' _ _ Hf. by apply IH in Hf. }
  eauto using only_emptied_trans.
Qed.

Lemma ancestor_head h n a :
  ancestor h n a →
  a = n ∨ ∃ m, dependency h n m ∧ is_Some (h !! m) ∧ ancestor h m a.
Proof.
  induction 1 as [Hn|m a _ IH Hd Ha]; [by left|right].
  destruct IH as [->|(m' & Hd' & Hm' & Hanc)].
  - exists a. split_and!; [done|done|by apply ancestor_self].
  - exists m'. split_and!; [done|done|by eapply ancestor_step].
Qed.

Lemma downstream_head h n d :
  downstream h n d →
  dependent_of h n d ∨ ∃ m, dependent_of h n m ∧ downstream h m d.
Proof.
  induction 1 as [d Hd|m d _ IH Hd]; [by left|right].
  destruct IH as [Hm|(m' & Hd' & Hdown)].
  - exists m. split; [done|by apply downstream_direct].
  - exists m'. split; [done|by eapply downstream_step].
Qed.

Lemma downstream_cons h n m d :
  dependent_of h n m → downstream h m d → downstream h n d.
Proof.
  intros Hnm. induction 1 as [d Hd|k d _ IH Hd].
  - eapply downstream_step; [by apply downstream_direct|done].
  - by eapply downstream_step.
Qed.

Lemma elem_of_args_of h h' x y :
  only_emptied h h' →
  y ∈ from_option latent_args [] (h' !! x) ↔ dependency h x y.
Proof.
  intros H. rewrite <- (only_emptied_dependency _ _ _ _ H). unfold dependency.
  destruct (h' !! x) as [nd|]; simpl.
  - split; [by exists nd|]. by intros (? & [= <-] & ?).
  - split; [by intros ?%elem_of_nil|]. by intros (? & [=] & _).
Qed.

Lemma elem_of_dependents_of h h' x d :
  only_emptied h h' →
  d ∈ from_option _dependents [] (h' !! x) ↔ dependent_of h x d.
Proof.
  intros H. rewrite <- (only_emptied_dependent_of _ _ _ _ H). unfold dependent_of.
  destruct (h' !! x) as [nd|]; simpl.
  - split; [by exists (_dependents nd)|]. by intros (? & [= <-] & ?).
  - split; [by intros ?%elem_of_nil|]. by intros (? & [=] & _).
Qed.

(** The intermediate stores of one activation of [clear_cache]. *)
Lemma clear_cache_split fuel self deps depd h h' :
  clear_cache (S fuel) self deps depd h = Some h' →
  ∃ h1,
    (if deps
     then foldl (λ acc o, match acc with
                          | None => None
                          | Some h' => clear_cache fuel o true false h'
                          end)
            (Some (alter (set_latent_data None) self h))
            (from_option latent_args []
               (alter (set_latent_data None) self h !! self))
     else Some (alter (set_latent_data None) self h)) = Some h1
    ∧ (if depd
       then foldl (λ acc o, match acc with
                            | None => None
                            | Some h' => clear_cache fuel o false true h'
                            end)
              (Some h1) (from_option _dependents [] (h1 !! self))
       else Some h1) = Some h'
    ∧ only_emptied (alter (set_latent_data None) self h) h1
    ∧ only_emptied h1 h'.
Proof.
  intros Hrun. rewrite clear_cache_unfold in Hrun.
  destruct (if deps then _ else _) as [h1|] eqn:E1; [|done].
  exists h1. split_and!; [done|done| |].
  - destruct deps; [|simplify_eq; apply only_emptied_refl].
    eapply (foldl_option_inv (λ b x, clear_cache fuel x true false b));
      [apply only_emptied_refl|apply only_emptied_trans| |exact E1].
    intros x b b' _ _ Hf. by apply clear_cache_only_empties in Hf.
  - destruct depd; [|simplify_eq; apply only_emptied_refl].
    eapply (foldl_option_inv (λ b x, clear_cache fuel x false true b));
      [apply only_emptied_refl|apply only_emptied_trans| |exact Hrun].
    intros x b b' _ _ Hf. by apply clear_cache_only_empties in Hf.
Qed.

Lemma only_emptied_not_computed h h' x :
  only_emptied h h' →
  Latent_computed <$> h !! x = Some false →
  Latent_computed <$> h' !! x = Some false.
Proof.
  intros H. destruct (H x) as [->| ->]; [done|].
  destruct (h !! x); [|done]. done.
Qed.

Lemma clear_cache_reaches fuel : ∀ self deps depd h h' x,
  clear_cache fuel self deps depd h = Some h' →
  is_Some (h !! x) →
  reached h self deps depd x →
  Latent_computed <$> h' !! x = Some false.
Proof.
  induction fuel as [|fuel IH]; intros self deps depd h h' x Hrun Hx Hr; [done|].
  destruct (clear_cache_split _ _ _ _ _ _ Hrun) as (h1 & E1 & E2 & H01 & H1').
  pose proof (only_emptied_alter self h) as H0.
  set (h0 := alter (set_latent_data None) self h) in *.
  assert (Hself : x = self → Latent_computed <$> h' !! x = Some false).
  { intros ->. apply (only_emptied_not_computed h1); [done|].
    apply (only_emptied_not_computed h0); [done|].
    unfold h0. rewrite list_lookup_alter_eq. by destruct Hx as [nd ->]. }
  destruct Hr as [?|[[-> Hanc]|[-> Hdown]]]; [by apply Hself| |].
  - apply ancestor_head in Hanc as [?|(m & Hd & Hm & Hanc)]; [by apply Hself|].
    apply (elem_of_args_of _ h0) in Hd; [|done].
    destruct (foldl_option_elem (λ b x, clear_cache fuel x true false b)
                only_emptied only_emptied_refl only_emptied_trans
                _ _ _ m
                ltac:(intros ? b b' _ _ Hf; by apply clear_cache_only_empties in Hf)
                Hd E1) as (b & b' & Hb & Hf & Hb').
    assert (only_emptied h b) as Hhb by eauto using only_emptied_trans.
    apply (only_emptied_not_computed h1); [done|].
    apply (only_emptied_not_computed b'); [done|].
    apply (IH _ _ _ _ _ _ Hf).
    + by apply (only_emptied_is_Some _ _ _ Hhb).
    + right; left. split; [done|]. by apply (only_emptied_ancestor _ _ _ _ Hhb).
  - assert (only_emptied h h1) as Hh1 by eauto using only_emptied_trans.
    assert (∃ m, dependent_of h self m ∧ (x = m ∨ downstream h m x))
      as (m & Hd & Hm).
    { apply downstream_head in Hdown as [?|(m & ? & ?)]; eauto. }
    apply (elem_of_dependents_of _ h1) in Hd; [|done].
    destruct (foldl_option_elem (λ b x, clear_cache fuel x false true b)
                only_emptied only_emptied_refl only_emptied_trans
                _ _ _ m
                ltac:(intros ? b b' _ _ Hf; by apply clear_cache_only_empties in Hf)
                Hd E2) as (b & b' & Hb & Hf & Hb').
    assert (only_emptied h b) as Hhb by eauto using only_emptied_trans.
    apply (only_emptied_not_computed b'); [done|].
    apply (IH _ _ _ _ _ _ Hf).
    + by apply (only_emptied_is_Some _ _ _ Hhb).
    + destruct Hm as [->|Hm]; [by left|right; right].
      split; [done|]. by apply (only_emptied_downstream _ _ _ _ Hhb).
Qed.

Lemma emptied_within_refl S h : emptied_within S h h.
Proof. intros x. by left. Qed.

Lemma emptied_within_trans S h1 h2 h3 :
  emptied_within S h1 h2 → emptied_within S h2 h3 → emptied_within S h1 h3.
Proof.
  intros H12 H23 x. destruct (H12 x) as [E1|[E1 ?]], (H23 x) as [E2|[E2 ?]];
    rewrite E2, E1; [by left|by right|by right|right].
  split; [|done]. by destruct (h1 !! x).
Qed.

Lemma emptied_within_only S h h' : emptied_within S h h' → only_emptied h h'.
Proof. intros H x. destruct (H x) as [?|[? _]]; [by left|by right]. Qed.

Lemma emptied_within_weaken (S S' : addr → Prop) h h' :
  (∀ x, is_Some (h !! x) → S x → S' x) →
  emptied_within S h h' → emptied_within S' h h'.
Proof.
  intros Hsub H x. destruct (H x) as [?|[E Hx]]; [by left|].
  destruct (h !! x) as [nd|] eqn:Ex; [|by left].
  right. split; [done|]. apply Hsub; [|done]. by rewrite Ex.
Qed.

Lemma clear_cache_within fuel : ∀ self deps depd h h',
  clear_cache fuel self deps depd h = Some h' →
  emptied_within (reached h self deps depd) h h'.
Proof.
  induction fuel as [|fuel IH]; intros self deps depd h h' Hrun; [done|].
  destruct (clear_cache_split _ _ _ _ _ _ Hrun) as (h1 & E1 & E2 & H01 & H1').
  pose proof (only_emptied_alter self h) as H0.
  set (S := reached h self deps depd).
  set (h0 := alter (set_latent_data None) self h) in *.
  assert (emptied_within S h h0) as W0.
  { intros x. unfold h0. rewrite list_lookup_alter.
    case_decide; [subst; right; split; [done|by left]|by left]. }
  assert (emptied_within S h0 h1) as W1.
  { destruct deps; [|simplify_eq; apply emptied_within_refl].
    eapply (foldl_option_inv (λ b x, clear_cache fuel x true false b));
      [apply emptied_within_refl|apply emptied_within_trans| |exact E1].
    intros m b b' Hm Hb Hf. apply IH in Hf.
    assert (only_emptied h b) as Hhb
      by eauto using only_emptied_trans, emptied_within_only.
    apply (elem_of_args_of h) in Hm; [|done].
    revert Hf. apply emptied_within_weaken.
    intros x Hx [->|[[_ Hanc]|[[=] _]]]; right; left; (split; [done|]).
    - eapply ancestor_step; [|done|by apply (only_emptied_is_Some _ _ _ Hhb)].
      apply ancestor_self. destruct Hm as (? & -> & _). done.
    - apply (only_emptied_ancestor _ _ _ _ Hhb) in Hanc.
      apply ancestor_trans with m; [|done].
      eapply ancestor_step; [|done|by eapply ancestor_root].
      apply ancestor_self. destruct Hm as (? & -> & _). done. }
  assert (emptied_within S h1 h') as W2.
  { destruct depd; [|simplify_eq; apply emptied_within_refl].
    assert (only_emptied h h1) as Hh1 by eauto using only_emptied_trans.
    eapply (foldl_option_inv (λ b x, clear_cache fuel x false true b));
      [apply emptied_within_refl|apply emptied_within_trans| |exact E2].
    intros m b b' Hm Hb Hf. apply IH in Hf.
    assert (only_emptied h b) as Hhb
      by eauto using only_emptied_trans, emptied_within_only.
    apply (elem_of_dependents_of h) in Hm; [|done].
    revert Hf. apply emptied_within_weaken.
    intros x Hx [->|[[[=] _]|[_ Hdown]]]; right; right; (split; [done|]).
    - by apply downstream_direct.
    - apply (only_emptied_downstream _ _ _ _ Hhb) in Hdown.
      by eapply downstream_cons. }
  eauto using emptied_within_trans.
Qed.

(** X16.  [clear_cache] empties exactly the caches it is asked to: the one
    of the node, with [dependencies=True] those of all the nodes it depends
    on, directly or not, and with [dependents=True] those of all its
    dependents, direct or not.  These objects change in nothing but the
    cache, and every other object is left as it is. *)
Theorem X16_clear_cache_empties_what_it_reaches fuel self deps depd h h' x :
  clear_cache fuel self deps depd h = Some h' →
  (reached h self deps depd x → h' !! x = set_latent_data None <$> h !! x)
  ∧ (¬ reached h self deps depd x → h' !! x = h !! x).
Proof.
  intros Hrun. split.
  - intros Hr. destruct (h !! x) as [nd|] eqn:Ex.
    + pose proof (clear_cache_reaches _ _ _ _ _ _ x Hrun) as He.
      rewrite Ex in He. specialize (He ltac:(done) Hr).
      destruct (clear_cache_only_empties _ _ _ _ _ _ Hrun x) as [E|E];
        rewrite Ex in E; [|done].
      rewrite E in He |- *. simpl in He. injection He as He.
      unfold Latent_computed in He. apply bool_decide_eq_false in He.
      destruct nd as [? ? ? ? [c|] ? ? ?]; simpl in *; [|done].
      exfalso. apply He. by eexists.
    + destruct (clear_cache_only_empties _ _ _ _ _ _ Hrun x) as [E|E];
        by rewrite Ex in E.
  - intros Hn. destruct (clear_cache_within _ _ _ _ _ _ Hrun x) as [?|[_ ?]]; done.
Qed.

Lemma X16_clear_cache_empties_what_it_reaches_witness :
  ∃ h', clear_cache 3 2 true false (heap st_expr_computed) = Some h'
        ∧ (reached (heap st_expr_computed) 2 true false 0 →
           h' !! 0 = set_latent_data None <$> heap st_expr_computed !! 0)
        ∧ (¬ reached (heap st_expr_computed) 2 true false 0 →
           h' !! 0 = heap st_expr_computed !! 0).
Proof.
  eexists. split; [vm_compute; reflexivity|].
  apply (X16_clear_cache_empties_what_it_reaches 3 2 true false
           (heap st_expr_computed)).
  vm_compute; reflexivity.
Defined.

Lemma clear_cache_total_ranked (up down : addr → nat) h :
  (∀ n a, dependency h n a → up a < up n) →
  (∀ n d, dependent_of h n d → down d < down n) →
  ∀ fuel self deps depd h1,
    only_emptied h h1 →
    0 < fuel →
    (deps = true → up self < fuel) →
    (depd = true → down self < fuel) →
    ∃ h', clear_cache fuel self deps depd h1 = Some h'.
Proof.
  intros Hup Hdown.
  induction fuel as [|fuel IH]; intros self deps depd h1 Hh1 Hpos Hu Hd; [lia|].
  rewrite clear_cache_unfold.
  pose proof (only_emptied_alter self h1) as H0.
  set (h0 := alter (set_latent_data None) self h1) in *.
  assert (only_emptied h h0) as Hh0 by eauto using only_emptied_trans.
  assert (∃ h2, (if deps
                 then foldl (λ acc o, match acc with
                                      | None => None
                                      | Some h' => clear_cache fuel o true false h'
                                      end)
                        (Some h0) (from_option latent_args [] (h0 !! self))
                 else Some h0) = Some h2 ∧ only_emptied h0 h2) as (h2 & -> & H02).
  { destruct deps; [|exists h0; split; [done|apply only_emptied_refl]].
    destruct (foldl_option_total (λ b x, clear_cache fuel x true false b)
                only_emptied only_emptied_refl only_emptied_trans
                (from_option latent_args [] (h0 !! self)) h0) as [h2 E2].
    - intros m b Hm Hb. apply (elem_of_args_of h) in Hm; [|done].
      apply Hup in Hm. specialize (Hu eq_refl).
      destruct (IH m true false b) as [b' Eb];
        [eauto using only_emptied_trans|lia|lia|done|].
      exists b'. split; [done|]. by apply clear_cache_only_empties in Eb.
    - exists h2. split; [done|].
      eapply (foldl_option_inv (λ b x, clear_cache fuel x true false b));
        [apply only_emptied_refl|apply only_emptied_trans| |exact E2].
      intros x b b' _ _ Hf. by apply clear_cache_only_empties in Hf. }
  destruct depd; [|by exists h2].
  assert (only_emptied h h2) as Hh2 by eauto using only_emptied_trans.
  apply (foldl_option_total (λ b x, clear_cache fuel x false true b)
           only_emptied only_emptied_refl only_emptied_trans).
  intros m b Hm Hb. apply (elem_of_dependents_of h) in Hm; [|done].
  apply Hdown in Hm. specialize (Hd eq_refl).
  destruct (IH m false true b) as [b' Eb];
    [eauto using only_emptied_trans|lia|done|lia|].
  exists b'. split; [done|]. by apply clear_cache_only_empties in Eb.
Qed.

(** X17.  [clear_cache] ends on graphs without cycles.  If the dependencies
    decrease some rank and the dependents decrease some rank, a recursion
    budget above the two ranks of the node is enough for the call to
    complete, whatever its flags. *)
Theorem X17_clear_cache_ends_without_cycles (up down : addr → nat)
    fuel self deps depd h :
  (∀ n a, dependency h n a → up a < up n) →
  (∀ n d, dependent_of h n d → down d < down n) →
  up self < fuel →
  down self < fuel →
  ∃ h', clear_cache fuel self deps depd h = Some h'.
Proof.
  intros Hup Hdown Hu Hd.
  apply (clear_cache_total_ranked up down h Hup Hdown);
    [apply only_emptied_refl|lia|done|done].
Qed.

Lemma X17_clear_cache_ends_without_cycles_witness :
  ∃ h', clear_cache 4 2 true true (heap st_expr) = Some h'.
Proof.
  apply (X17_clear_cache_ends_without_cycles (λ x, x) (λ x, 3 - x)).
  - apply dependencies_decrease_checked; reflexivity.
  - apply dependents_decrease_checked; reflexivity.
  - lia.
  - simpl; lia.
Defined.

Lemma clear_cache_closed_set (C : addr → Prop) h :
  (∀ x, C x → ∃ y, dependency h x y ∧ C y) →
  ∀ fuel x depd h1,
    only_emptied h h1 → C x → clear_cache fuel x true depd h1 = None.
Proof.
  intros Hclosed.
  induction fuel as [|fuel IH]; intros x depd h1 Hh1 Hx; [done|].
  rewrite clear_cache_unfold.
  pose proof (only_emptied_alter x h1) as H0.
  set (h0 := alter (set_latent_data None) x h1) in *.
  assert (only_emptied h h0) as Hh0 by eauto using only_emptied_trans.
  destruct (foldl _ _ _) as [h2|] eqn:E; [exfalso|done].
  destruct (Hclosed x Hx) as (y & Hy & HCy).
  apply (elem_of_args_of _ h0) in Hy; [|done].
  destruct (foldl_option_elem (λ b x, clear_cache fuel x true false b)
              only_emptied only_emptied_refl only_emptied_trans
              _ _ _ y
              ltac:(intros ? b b' _ _ Hf; by apply clear_cache_only_empties in Hf)
              Hy E) as (b & b' & Hb & Hf & _).
  rewrite IH in Hf; [done| |done]. eauto using only_emptied_trans.
Qed.

(** X18.  [clear_cache] has no guard against cycles.  If the node, or a
    node it depends on, lies on a cycle of dependencies, then
    [clear_cache(dependencies=True)] does not complete within any recursion
    budget. *)
Theorem X18_clear_cache_recurses_forever_on_a_cycle h self c fuel depd :
  ancestor h self c →
  on_cycle h c →
  clear_cache fuel self true depd h = None.
Proof.
  intros Hc Hcyc.
  apply (clear_cache_closed_set (λ x, ∃ c, ancestor h x c ∧ on_cycle h c) h);
    [|apply only_emptied_refl|by exists c].
  clear. intros x (c & Hxc & Hcyc).
  apply ancestor_head in Hxc as [->|(y & Hd & Hy & Hyc)].
  - destruct Hcyc as (m & Hxm & Hmx).
    pose proof (ancestor_root _ _ _ Hxm) as Hx.
    apply ancestor_head in Hxm as [->|(y & Hd & Hy & Hym)].
    + exists x. split; [done|]. exists x. split; [by apply ancestor_self|].
      exists x. split; [by apply ancestor_self|done].
    + exists y. split; [done|]. exists x. split; [by eapply ancestor_step|].
      exists m. split; [|done].
      apply ancestor_trans with y; [|done].
      eapply ancestor_step; [by apply ancestor_self|done|done].
  - exists y. split; [done|]. by exists c.
Qed.

Lemma X18_clear_cache_recurses_forever_on_a_cycle_witness :
  clear_cache 50 1 true false (heap st_cycle) = None.
Proof.
  apply (X18_clear_cache_recurses_forever_on_a_cycle (heap st_cycle) 1 0).
  - apply (ancestor_step _ _ 1 0).
    + apply ancestor_self. eexists; reflexivity.
    + eexists. split; [reflexivity|]. apply list_elem_of_here.
    + eexists; reflexivity.
  - exists 1. split.
    + apply (ancestor_step _ _ 0 1).
      * apply ancestor_self. eexists; reflexivity.
      * eexists. split; [reflexivity|]. apply list_elem_of_here.
      * eexists; reflexivity.
    + eexists. split; [reflexivity|]. apply list_elem_of_here.
Defined.

(** X19.  [clear_cache] and [compute] together: after a [clear_cache] on a
    node, with whatever flags, the next [compute] on that node that returns
    a value has run the callable of the node again. *)
Theorem X19_clear_cache_forces_the_next_call
    fuel fuel' self deps depd fr rd dc md s h' v s' :
  is_Some (heap s !! self) →
  clear_cache fuel self deps depd (heap s) = Some h' →
  compute fuel' self fr rd dc md (with_heap h' s) = (Returned v, s') →
  ∃ mid, calls s' = self :: mid ++ calls s.
Proof.
  intros Hs Hclear Hrun.
  pose proof (clear_cache_reaches _ _ _ _ _ _ self Hclear Hs (or_introl eq_refl))
    as He.
  destruct (h' !! self) as [nd'|] eqn:E; [|done].
  injection He as He. unfold Latent_computed in He.
  apply bool_decide_eq_false in He.
  apply (uncached_or_forced_call_executes fuel' self fr rd dc md
           (with_heap h' s) nd' v s'); [done| |done].
  left. destruct (latent_data nd'); [|done]. exfalso. apply He. by eexists.
Qed.

Lemma X19_clear_cache_forces_the_next_call_witness :
  ∃ h', clear_cache 1 2 false false (heap st_expr_computed) = Some h'
        ∧ ∃ mid, calls (compute 3 2 false false false None
                          (with_heap h' st_expr_computed)).2
                 = 2 :: mid ++ calls st_expr_computed.
Proof.
  eexists. split; [vm_compute; reflexivity|].
  eapply (X19_clear_cache_forces_the_next_call 1 3 2 false false false false false
            None st_expr_computed _ (VInt 1030));
    [eexists; reflexivity | vm_compute; reflexivity | vm_compute; reflexivity].
Defined.
